(** * goat: the storage layer of the tracker

    A shallow embedding of the storage code of goat (package [goat]):
    the sharded map store ([mapDb.go]), the request router [DbManager],
    and the record types with their SQL-backed operations.

    Go values are modelled as follows.
    - [int], [int64], [uint16] and bytes are [Z]; narrowing conversions
      are written out with [Z.land] and [Z.shiftr], and the wrap-around
      of [int] arithmetic with [int_wrap] where a value can reach the
      ends of the range.
    - [string] is [string]; [[]byte] is [list Z].
    - A Go map is a reference: maps live in a heap of objects and are
      named by their location, so that two holders of the same map see
      each other's updates.  A nil map is [None].
    - A goroutine started by [go f(x)] is an entry in a pool; a
      schedule decides which one runs next.  The goroutines of the map
      store are modelled twice: with calls that run to their end once
      they start ([run]), and statement by statement ([steps]).
    - A send on [Static.LogChan], [Static.ShutdownChan] or
      [dbDoneChan] is recorded in the order of the sends; their
      receivers are outside the code at hand.  The two backend channels
      of [DbManager] have no receiver at all: a send on them completes
      only while their buffer has room.
    - A panic is an explicit outcome. *)

From Stdlib Require Import ZArith Lia List Ascii String.
From stdpp Require Import gmap strings list fin_maps.

Local Open Scope string_scope.
Local Open Scope list_scope.
Local Open Scope Z_scope.

(** * The code

    ** Library functions used by the map store

    [strconv], [encoding/hex], [net], [encoding/binary],
    [database/sql] and sqlx are libraries of the Go side; what the code
    calls of them is written out here after their documented
    behaviour. *)

Module strconv.

(** [strconv.Itoa]: the decimal rendering of an [int].  Twenty digits
    are enough for any 64-bit value. *)
Definition digit (d : Z) : ascii := ascii_of_nat (48 + Z.to_nat d).

Fixpoint utoa (fuel : nat) (n : Z) (acc : string) : string :=
  match fuel with
  | O => acc
  | S fuel' =>
      let acc' := String (digit (n mod 10)) acc in
      if n / 10 =? 0 then acc' else utoa fuel' (n / 10) acc'
  end.

Definition Itoa (i : Z) : string :=
  if i <? 0 then String "-" (utoa 20 (- i) "") else utoa 20 i "".

End strconv.

Module hex.

Definition hextable : string := "0123456789abcdef".

Definition hexchar (n : Z) : ascii :=
  match String.get (Z.to_nat n) hextable with
  | Some c => c
  | None => "0"%char
  end.

(** [hex.EncodeToString]: two lower-case hexadecimal characters per
    byte of the input. *)
Fixpoint EncodeToString (src : list Z) : string :=
  match src with
  | [] => ""
  | v :: rest =>
      String (hexchar (Z.shiftr v 4))
        (String (hexchar (Z.land v 15)) (EncodeToString rest))
  end.

End hex.

(** [[]byte(s)]: the bytes of a string. *)
Definition bytes_of_string (s : string) : list Z :=
  map (fun c => Z.of_nat (nat_of_ascii c)) (list_ascii_of_string s).

(** ** Record types *)

Record AnnounceLog := mkAnnounceLog {
  al_Id : Z;
  al_InfoHash : string;
  al_PeerId : string;
  al_Ip : string;
  al_Port : Z;
  al_Uploaded : Z;
  al_Downloaded : Z;
  al_Left : Z;
  al_Event : string;
  al_Time : Z
}.

Record FileRecord := mkFileRecord {
  fr_Id : Z;
  fr_InfoHash : string;
  fr_Verified : bool;
  fr_Completed : Z;
  fr_CreateTime : Z;
  fr_UpdateTime : Z
}.

Record FileUserRecord := mkFileUserRecord {
  fu_FileId : Z;
  fu_UserId : Z;
  fu_Active : bool;
  fu_Completed : bool;
  fu_Announced : Z;
  fu_Uploaded : Z;
  fu_Downloaded : Z;
  fu_Left : Z;
  fu_Time : Z
}.

Record UserRecord := mkUserRecord {
  ur_Id : Z;
  ur_Username : string;
  ur_Passkey : string;
  ur_TorrentLimit : Z
}.

(** ** Dynamic values and the heap of maps *)

Definition loc := nat.

(** A value of type [interface{}]: nil, a reference to a
    [map[string]interface{}], or one of the record types. *)
Inductive iface :=
| Nil
| MapRef (l : loc)
| VAnnounceLog (a : AnnounceLog)
| VFileRecord (f : FileRecord)
| VFileUserRecord (f : FileUserRecord)
| VUserRecord (u : UserRecord).

(** Heap objects: a [map[string]interface{}] (a trie container), a
    [map[string]*interface{}] (the flat lookup index), or the target of
    an [*interface{}]. *)
Inductive object :=
| MapObj (m : gmap string iface)
| IndexObj (m : gmap string loc)
| Cell (v : iface).

Record Heap := mkHeap {
  objs : gmap loc object;
  brk : loc
}.

Definition empty_heap : Heap := mkHeap ∅ 0%nat.

(** [make(map[string]interface{})] *)
Definition make_map (h : Heap) : loc * Heap :=
  (brk h, mkHeap (<[brk h := MapObj ∅]> (objs h)) (S (brk h))).

(** [make(map[string]*interface{})] *)
Definition make_index (h : Heap) : loc * Heap :=
  (brk h, mkHeap (<[brk h := IndexObj ∅]> (objs h)) (S (brk h))).

(** [m[c] = v]; writing through a reference that is not a map panics. *)
Definition map_store (m : loc) (c : string) (v : iface) (h : Heap) : option Heap :=
  match objs h !! m with
  | Some (MapObj mm) => Some (mkHeap (<[m := MapObj (<[c := v]> mm)]> (objs h)) (brk h))
  | _ => None
  end.

(** [m[c]]; a missing key reads as nil. *)
Definition map_load (m : loc) (c : string) (h : Heap) : option iface :=
  match objs h !! m with
  | Some (MapObj mm) => Some (default Nil (mm !! c))
  | _ => None
  end.

(** [v.(map[string]interface{})]: the type assertion panics on anything
    but a map. *)
Definition assert_map (v : iface) : option loc :=
  match v with
  | MapRef l => Some l
  | _ => None
  end.

(** The number of trie containers on the heap. *)
Definition is_map (o : object) : bool :=
  match o with MapObj _ => true | _ => false end.

Definition containers (h : Heap) : nat :=
  size (filter (fun p : loc * object => is_map p.2 = true) (objs h)).

(** ** The sharded map store ([mapDb.go]) *)

(** [MapDb]: the two maps are references, nil until [init] makes them. *)
Record MapDb := mkMapDb {
  Id : string;
  Busy : bool;
  MapStor : option loc;
  MapLookup : option loc
}.

(** [new(MapDb)] points to the zero value. *)
Definition zero_MapDb : MapDb := mkMapDb "" false None None.

(** [Static.Config] *)
Record Config := mkConfig {
  Map : bool;
  Sql : bool;
  Size : Z
}.

(** The part of the process state the map store touches: the heap, the
    goroutines started by [go addMap(m, size)] that have not run yet,
    and what has been sent on [Static.LogChan]. *)
Record World := mkWorld {
  heap : Heap;
  pool : list (loc * Z);
  LogChan : list string
}.

Definition empty_world : World := mkWorld empty_heap [] [].

(** Go's [int] is 64 bits wide on the platforms the tracker is built
    for (amd64); its arithmetic wraps around. *)
Definition min_int : Z := - 2 ^ 63.

Definition int_wrap (z : Z) : Z := (z + 2 ^ 63) mod 2 ^ 64 - 2 ^ 63.

(** The key of the [i]-th child:
    [hex.EncodeToString([]byte(strconv.Itoa(i)))]. *)
Definition child_key (i : Z) : string :=
  hex.EncodeToString (bytes_of_string (strconv.Itoa i)).

(** [addMap], from iteration [i] with [n] iterations to go, as it runs
    when no other goroutine runs in between.  Each iteration makes a
    container, stores it under the child key, reads it back and starts
    a goroutine on it with [size - 1], which wraps around at the
    smallest [int].  The goroutines started are left pending. *)
Fixpoint addMap_from (n : nat) (i : Z) (m : loc) (size : Z) (w : World) : option World :=
  match n with
  | O => Some w
  | S n' =>
      let c := child_key i in
      let '(l, h1) := make_map (heap w) in
      h2 ← map_store m c (MapRef l) h1;
      v ← map_load m c h2;
      child ← assert_map v;
      addMap_from n' (i + 1) m size
        (mkWorld h2 (pool w ++ [(child, int_wrap (size - 1))]) (LogChan w))
  end.

Definition addMap (m : loc) (size : Z) (w : World) : option World :=
  addMap_from 16 0 m size w.

(** The depth [D = ceil(log16(capacity))].  The source computes it in
    float64, as [int(math.Ceil(math.Log(float64(Size)) / math.Log(16)))].
    - For [Size = 0] the logarithm is [-Inf], for a negative [Size] it
      is [NaN], and so are the quotient and its ceiling; the conversion
      of either to [int] yields the smallest [int] on amd64.
    - For [Size >= 1] the model takes the value of the formula over the
      reals.  The float64 computation agrees with it on the powers of
      16 and on every size below [2 ^ 52]; from there on a size just
      above a power of 16 is no longer told from the power itself, and
      such sizes are outside the model.
    [addMap] hands the depth down and never tests it. *)
Definition ceil_log16 (C : Z) : Z :=
  if C <=? 0 then min_int else (Z.log2_up C + 3) / 4.

(** [MapDb.init].  The receiver is a value: the body works on its own
    copy [db] of the struct.  The result is that copy as it stands when
    the body ends, and the world. *)
Definition init (cfg : Config) (db : MapDb) (w : World) : option (MapDb * World) :=
  '(db1, w1) ←
    match MapStor db with
    | None =>
        let size := ceil_log16 (Size cfg) in
        let '(l, h1) := make_map (heap w) in
        let db' := mkMapDb (Id db) (Busy db) (Some l) (MapLookup db) in
        w' ← addMap l size (mkWorld h1 (pool w) (LogChan w));
        Some (db', w')
    | Some _ => Some (db, w)
    end;
  match MapLookup db1 with
  | None =>
      let '(l, h1) := make_index (heap w1) in
      Some (mkMapDb (Id db1) (Busy db1) (MapStor db1) (Some l),
            mkWorld h1 (pool w1) (LogChan w1))
  | Some _ => Some (db1, w1)
  end.

(** A call [d.init()] as the caller sees it: the callee's copy is
    dropped on return, the caller's [d] is what it was. *)
Definition call_init (cfg : Config) (d : MapDb) (w : World) : option (MapDb * World) :=
  r ← init cfg d w; Some (d, r.2).

(** *** Goroutines *)

Inductive outcome :=
| Running (w : World)
| Idle (w : World)
| Panic.

(** One scheduling step of the schedules in which a call, once it
    runs, is not interrupted: the pending call chosen by [k] runs
    [addMap] to its end before any other goroutine makes a step.  With
    nothing pending the construction is over.  [init] above is of the
    same kind: it runs the loop of [addMap] on the root to its end and
    leaves the sixteen goroutines it started pending.  The schedules
    that interleave the statements of the goroutines are those of
    [steps] below. *)
Definition run_goroutine (k : nat) (w : World) : outcome :=
  let j := (k mod List.length (pool w))%nat in
  match pool w !! j with
  | None => Idle w
  | Some (m, size) =>
      match addMap m size (mkWorld (heap w) (delete j (pool w)) (LogChan w)) with
      | Some w' => Running w'
      | None => Panic
      end
  end.

Fixpoint run (ks : list nat) (w : World) : outcome :=
  match ks with
  | [] => Running w
  | k :: ks' =>
      match run_goroutine k w with
      | Running w' => run ks' w'
      | o => o
      end
  end.

(** The children of a container, as a finite map. *)
Definition children (m : loc) (h : Heap) : gmap string iface :=
  match objs h !! m with
  | Some (MapObj mm) => mm
  | _ => ∅
  end.

(** *** Goroutines, statement by statement

    [run_goroutine] above is the schedule in which a call of [addMap],
    once it runs, is not interrupted.  In the source the children are
    started by [go] inside the loop and run along with the rest of the
    loop of their parent.  The machine below interleaves the goroutines
    at the grain of the statements: a step makes one access to the heap
    or to the pool of goroutines.  That no two goroutines work on the
    same map is not assumed; it is a property of the code, proved
    further down. *)

(** Where a goroutine stands in an iteration of the loop of [addMap]. *)
Inductive pc :=
| AtMake
| AtStore (l : loc)
| AtLoad
| AtSpawn (child : loc).

(** A goroutine: about to run [init] on its copy [db] of the struct;
    in iteration [i] of the loop of [addMap(m, size)], called by [init]
    with the copy [db] when [caller] is [Some db] and started by [go]
    otherwise; or in [init] after the call of [addMap], before the test
    of [MapLookup]. *)
Inductive goroutine :=
| InInit (db : MapDb)
| InAddMap (m : loc) (size : Z) (i : Z) (at_pc : pc) (caller : option MapDb)
| InLookup (db : MapDb).

Record Machine := mkMachine {
  mheap : Heap;
  goroutines : list goroutine
}.

(** One step of a goroutine on the heap: the heap after the step, the
    goroutine as it goes on ([None] when it has returned) and the
    goroutines it has started.  [None]: the step panics.
    - [AtMake]: [make(map[string]interface{})];
    - [AtStore l]: [m[c] = l];
    - [AtLoad]: [m[c].(map[string]interface{})];
    - [AtSpawn child]: [go addMap(child, size-1)], then [i++] and the
      test [i < 16]. *)
Definition step_goroutine (cfg : Config) (g : goroutine) (h : Heap)
    : option (Heap * option goroutine * list goroutine) :=
  match g with
  | InInit db =>
      match MapStor db with
      | None =>
          let size := ceil_log16 (Size cfg) in
          let '(l, h1) := make_map h in
          let db' := mkMapDb (Id db) (Busy db) (Some l) (MapLookup db) in
          Some (h1, Some (InAddMap l size 0 AtMake (Some db')), [])
      | Some _ => Some (h, Some (InLookup db), [])
      end
  | InAddMap m size i AtMake caller =>
      let '(l, h1) := make_map h in
      Some (h1, Some (InAddMap m size i (AtStore l) caller), [])
  | InAddMap m size i (AtStore l) caller =>
      h2 ← map_store m (child_key i) (MapRef l) h;
      Some (h2, Some (InAddMap m size i AtLoad caller), [])
  | InAddMap m size i AtLoad caller =>
      v ← map_load m (child_key i) h;
      child ← assert_map v;
      Some (h, Some (InAddMap m size i (AtSpawn child) caller), [])
  | InAddMap m size i (AtSpawn child) caller =>
      Some (h,
            (if i + 1 <? 16
             then Some (InAddMap m size (i + 1) AtMake caller)
             else InLookup <$> caller),
            [InAddMap child (int_wrap (size - 1)) 0 AtMake None])
  | InLookup db =>
      match MapLookup db with
      | None => let '(l, h1) := make_index h in Some (h1, None, [])
      | Some _ => Some (h, None, [])
      end
  end.

(** One step of the machine: the goroutine chosen by [k] makes a step;
    it keeps its place in the pool, the goroutines it starts join at
    the end.  With no goroutine left nothing happens. *)
Definition step (cfg : Config) (k : nat) (M : Machine) : option Machine :=
  let j := (k mod List.length (goroutines M))%nat in
  match goroutines M !! j with
  | None => Some M
  | Some g =>
      '(h, next, started) ← step_goroutine cfg g (mheap M);
      Some (mkMachine h (take j (goroutines M) ++ option_list next
                           ++ drop (S j) (goroutines M) ++ started))
  end.

Fixpoint steps (cfg : Config) (ks : list nat) (M : Machine) : option Machine :=
  match ks with
  | [] => Some M
  | k :: ks' => M' ← step cfg k M; steps cfg ks' M'
  end.

(** A pending call of [addMap] as a goroutine that has not started its
    loop, and a world as a machine. *)
Definition start (t : loc * Z) : goroutine := InAddMap t.1 t.2 0 AtMake None.

Definition machine_of (w : World) : Machine :=
  mkMachine (heap w) (start <$> pool w).

(** *** Requests, [Write] and [Read] *)

(** Modelled from the spec: [Request] is declared outside the files at
    hand; the code reads one field of it, the payload [Data], which is
    nil for a request that carries nothing. *)
Record Request := mkRequest {
  Data : iface
}.

(** [MapDb.Write]: a type switch on the payload, every case empty. *)
Definition Write (db : MapDb) (req : Request) (w : World) : World :=
  match Data req with
  | VAnnounceLog _ => w
  | VFileRecord _ => w
  | VFileUserRecord _ => w
  | _ => w
  end.

(** [MapDb.Read]: the same switch; the method has no result. *)
Definition Read (db : MapDb) (req : Request) (w : World) : World :=
  match Data req with
  | VAnnounceLog _ => w
  | VFileRecord _ => w
  | VFileUserRecord _ => w
  | _ => w
  end.

(** A value is held by the store when some container or the lookup
    index maps a key to it. *)
Definition held_in_map (h : Heap) (k : string) (v : iface) : Prop :=
  ∃ l mm, objs h !! l = Some (MapObj mm) ∧ mm !! k = Some v.

Definition held_in_index (h : Heap) (k : string) (v : iface) : Prop :=
  ∃ l ix p, objs h !! l = Some (IndexObj ix) ∧ ix !! k = Some p ∧
    objs h !! p = Some (Cell v).

Definition stored (h : Heap) (v : iface) : Prop :=
  ∃ k, held_in_map h k v ∨ held_in_index h k v.

(** The payloads the switch names. *)
Definition is_entity (v : iface) : bool :=
  match v with
  | VAnnounceLog _ | VFileRecord _ | VFileUserRecord _ => true
  | _ => false
  end.

(** *** [Shutdown] *)

(** [MapDb.Shutdown] is called through the pointer [mapDb]; the receiver
    [db] is a copy of the struct taken at the call.  While the loop
    sleeps the other goroutines run: [env i] is what they do to the
    struct behind the pointer during the [i]-th sleep.  [None] means
    the loop is still polling when the fuel runs out. *)
Fixpoint Shutdown_loop (fuel : nat) (i : nat) (db : MapDb)
    (env : nat → MapDb → MapDb) (shared : MapDb) (log : list string)
    : option (MapDb * list string) :=
  match fuel with
  | O => None
  | S fuel' =>
      if Busy db
      then Shutdown_loop fuel' (S i) db env (env i shared) log
      else Some (shared, log ++ ["stopping MapDb"])
  end.

Definition Shutdown (fuel : nat) (env : nat → MapDb → MapDb)
    (shared : MapDb) (log : list string) : option (MapDb * list string) :=
  let db := shared in
  Shutdown_loop fuel 0 db env shared log.

(** ** The request router ([DbManager]) *)

(** What the [select] receives, and what the router sends on. *)
Inductive arrival :=
| OnRequestChan (hold : Request)
| OnPersistentChan (hold : Request).

Inductive send :=
| ToMap (hold : Request)
| ToSql (hold : Request).

Definition is_nil (v : iface) : bool :=
  match v with Nil => true | _ => false end.

(** One turn of the loop of [DbManager] in the mode chosen by the
    configuration: the send statements the turn runs for the arrival,
    in program order.  Whether a send completes is up to its channel,
    see [DbManager_sends].  [None]: this mode has no [select] case for
    the arrival. *)
Definition DbManager_turn (cfg : Config) (a : arrival) : option (list send) :=
  if Map cfg && Sql cfg then
    match a with
    | OnRequestChan hold =>
        if is_nil (Data hold)
        then Some [ToMap hold]
        else Some [ToMap hold; ToSql hold]
    | OnPersistentChan hold => Some [ToSql hold]
    end
  else if Map cfg then
    match a with
    | OnRequestChan hold => Some [ToMap hold]
    | OnPersistentChan _ => None
    end
  else if Sql cfg then
    match a with
    | OnRequestChan hold => Some [ToSql hold]
    | OnPersistentChan _ => None
    end
  else None.

(** What a list of completed sends has put on each backend channel,
    in order. *)
Definition mapRequestChan (out : list send) : list Request :=
  omap (fun s => match s with ToMap r => Some r | ToSql _ => None end) out.

Definition sqlRequestChan (out : list send) : list Request :=
  omap (fun s => match s with ToSql r => Some r | ToMap _ => None end) out.

(** The two backend channels are locals of [DbManager]:
    [sqlRequestChan := make(chan Request)] has no buffer and
    [mapRequestChan := make(chan Request, 100)] a buffer of 100.  They
    are handed to no other goroutine, so nothing ever receives from
    them: what is sent stays in the buffer. *)
Definition capacity (s : send) : nat :=
  match s with
  | ToMap _ => 100
  | ToSql _ => 0
  end.

(** The number of requests in the buffer of the channel of [s] once the
    sends [done] have completed. *)
Definition buffered (s : send) (done : list send) : nat :=
  match s with
  | ToMap _ => List.length (mapRequestChan done)
  | ToSql _ => List.length (sqlRequestChan done)
  end.

(** The router: the sends that have completed, in order, and the send
    it is parked at, if any.  With no receiver a send that finds no room
    in the buffer never completes, and the router never leaves it. *)
Record Router := mkRouter {
  sent : list send;
  parked : option send
}.

(** The send statements of a turn, one after the other: a send
    completes when the buffer of its channel has room, and parks the
    router otherwise. *)
Fixpoint DbManager_sends (out : list send) (done : list send) : Router :=
  match out with
  | [] => mkRouter done None
  | s :: out' =>
      if bool_decide (buffered s done < capacity s)%nat
      then DbManager_sends out' (done ++ [s])
      else mkRouter done (Some s)
  end.

(** The loop over the arrivals the [select] takes, one after the other,
    after the sends [done].  An arrival the mode has no case for stays
    in its channel; once the router is parked no further arrival is
    taken. *)
Fixpoint DbManager_from (cfg : Config) (arrivals : list arrival) (done : list send)
    : Router :=
  match arrivals with
  | [] => mkRouter done None
  | a :: rest =>
      match DbManager_turn cfg a with
      | Some out =>
          let r := DbManager_sends out done in
          match parked r with
          | Some _ => r
          | None => DbManager_from cfg rest (sent r)
          end
      | None => DbManager_from cfg rest done
      end
  end.

(** The sends the router has completed when these arrivals were on
    offer, and the send it is parked at. *)
Definition DbManager_loop (cfg : Config) (arrivals : list arrival) : list send :=
  sent (DbManager_from cfg arrivals []).

Definition DbManager_parked (cfg : Config) (arrivals : list arrival) : option send :=
  parked (DbManager_from cfg arrivals []).

(** ** Library functions of the peer list: [net] and [encoding/binary]

    [net.ParseIP] is the parser of the Go releases of the time of the
    code: the dotted-quad form first, then the IPv6 forms.  (Later
    releases also refuse a dotted-quad field with a leading zero; on
    fields without one the two agree.) *)

Module net.

Definition code (c : ascii) : Z := Z.of_nat (nat_of_ascii c).

Definition is_dec (c : ascii) : bool := (48 <=? code c) && (code c <=? 57).

(** [big]: the bound at which [dtoi] and [xtoi] give up. *)
Definition big : Z := 0xFFFFFF.

(** [dtoi]: the decimal number at the head of [s]; the result is the
    number, the rest of the string, and whether a number was read. *)
Fixpoint dtoi_from (s : string) (n : Z) (any : bool) : Z * string * bool :=
  match s with
  | String c s' =>
      if is_dec c then
        let n' := n * 10 + (code c - 48) in
        if n' >=? big then (0, s, false) else dtoi_from s' n' true
      else if any then (n, s, true) else (0, s, false)
  | EmptyString => if any then (n, s, true) else (0, s, false)
  end.

Definition dtoi (s : string) : Z * string * bool := dtoi_from s 0 false.

Definition hexval (c : ascii) : option Z :=
  let v := code c in
  if (48 <=? v) && (v <=? 57) then Some (v - 48)
  else if (97 <=? v) && (v <=? 102) then Some (v - 97 + 10)
  else if (65 <=? v) && (v <=? 70) then Some (v - 65 + 10)
  else None.

(** [xtoi]: the same for a hexadecimal number. *)
Fixpoint xtoi_from (s : string) (n : Z) (any : bool) : Z * string * bool :=
  match s with
  | String c s' =>
      match hexval c with
      | Some d =>
          let n' := n * 16 + d in
          if n' >=? big then (0, s, false) else xtoi_from s' n' true
      | None => if any then (n, s, true) else (0, s, false)
      end
  | EmptyString => if any then (n, s, true) else (0, s, false)
  end.

Definition xtoi (s : string) : Z * string * bool := xtoi_from s 0 false.

Definition v4InV6Prefix : list Z := [0; 0; 0; 0; 0; 0; 0; 0; 0; 0; 0xff; 0xff].

(** [IPv4(a, b, c, d)]: the 16-byte form of an IPv4 address. *)
Definition IPv4 (a b c d : Z) : list Z := v4InV6Prefix ++ [a; b; c; d].

(** [parseIPv4]: four decimal fields of at most 255 separated by
    dots, and nothing else.  [j] counts the fields read into [p]. *)
Fixpoint parseIPv4_from (n : nat) (j : Z) (s : string) (p : list Z) : option (list Z) :=
  match n with
  | O =>
      match s, p with
      | EmptyString, [a; b; c; d] => Some (IPv4 a b c d)
      | _, _ => None
      end
  | S n' =>
      match s with
      | EmptyString => None
      | String c s' =>
          let after_dot :=
            if 0 <? j
            then (if Ascii.eqb c "." then Some s' else None)
            else Some s in
          match after_dot with
          | None => None
          | Some s1 =>
              let '(v, s2, ok) := dtoi s1 in
              if negb ok || (0xFF <? v) then None
              else parseIPv4_from n' (j + 1) s2 (p ++ [Z.land v 255])
          end
      end
  end.

Definition parseIPv4 (s : string) : option (list Z) := parseIPv4_from 4 0 s [].

Definition starts_with (c : ascii) (s : string) : bool :=
  match s with
  | String c' _ => Ascii.eqb c c'
  | EmptyString => false
  end.

Definition tail (s : string) : string :=
  match s with
  | String _ s' => s'
  | EmptyString => EmptyString
  end.

(** The loop of [parseIPv6]: hexadecimal groups followed by colons,
    with at most one [::] and possibly a trailing IPv4 form.  [ip] is
    what has been filled in so far (its length is the [j] of the
    code); the result is the bytes, the position of the ellipsis and
    the unread rest. *)
Fixpoint parseIPv6_loop (n : nat) (s : string) (ip : list Z) (ellipsis : option nat)
    : option (list Z * option nat * string) :=
  match n with
  | O => Some (ip, ellipsis, s)
  | S n' =>
      let '(v, s1, ok) := xtoi s in
      if negb ok || (0xFFFF <? v) then None
      else if starts_with "." s1 then
        if bool_decide (ellipsis = None) && negb (List.length ip =? 12)%nat then None
        else if (16 <? List.length ip + 4)%nat then None
        else
          match parseIPv4 s with
          | None => None
          | Some ip4 => Some (ip ++ drop 12 ip4, ellipsis, EmptyString)
          end
      else
        let ip' := ip ++ [Z.land (Z.shiftr v 8) 255; Z.land v 255] in
        match s1 with
        | EmptyString => Some (ip', ellipsis, s1)
        | String c s2 =>
            if negb (Ascii.eqb c ":") || bool_decide (s2 = EmptyString) then None
            else if starts_with ":" s2 then
              match ellipsis with
              | Some _ => None
              | None =>
                  let s3 := tail s2 in
                  if bool_decide (s3 = EmptyString)
                  then Some (ip', Some (List.length ip'), s3)
                  else parseIPv6_loop n' s3 ip' (Some (List.length ip'))
              end
            else parseIPv6_loop n' s2 ip' ellipsis
        end
  end.

Definition zeros (n : nat) : list Z := replicate n 0.

Definition parseIPv6 (s : string) : option (list Z) :=
  let lead := starts_with ":" s && starts_with ":" (tail s) in
  let s0 := if lead then tail (tail s) else s in
  let ellipsis := if lead then Some 0%nat else None in
  if lead && bool_decide (s0 = EmptyString) then Some (zeros 16)
  else
    match parseIPv6_loop 8 s0 [] ellipsis with
    | None => None
    | Some (ip, ellipsis, rest) =>
        if negb (bool_decide (rest = EmptyString)) then None
        else if (List.length ip <? 16)%nat then
          match ellipsis with
          | None => None
          | Some e => Some (take e ip ++ zeros (16 - List.length ip) ++ drop e ip)
          end
        else
          match ellipsis with
          | Some _ => None
          | None => Some ip
          end
    end.

(** [ParseIP]: nil ([None]) when [s] is neither form. *)
Definition ParseIP (s : string) : option (list Z) :=
  match parseIPv4 s with
  | Some ip => Some ip
  | None => parseIPv6 s
  end.

(** [To4]: the 4-byte form of an IPv4 address, nil for anything else
    (and for nil). *)
Definition To4 (ip : option (list Z)) : option (list Z) :=
  match ip with
  | None => None
  | Some b =>
      if (List.length b =? 4)%nat then Some b
      else if (List.length b =? 16)%nat
              && bool_decide (take 12 b = v4InV6Prefix)
      then Some (drop 12 b)
      else None
  end.

End net.

(** A run that ends in a value, or in a panic. *)
Inductive result (A : Type) :=
| Ok (a : A)
| Panics (msg : string).
Arguments Ok {A} a.
Arguments Panics {A} msg.

Module binary.

(** [binary.BigEndian.Uint32]; indexing a slice shorter than four
    bytes (nil included) panics. *)
Definition Uint32 (b : option (list Z)) : result Z :=
  match b with
  | Some (b0 :: b1 :: b2 :: b3 :: _) =>
      Ok (Z.lor (Z.lor (Z.lor b3 (Z.shiftl b2 8)) (Z.shiftl b1 16)) (Z.shiftl b0 24))
  | _ => Panics "runtime error: index out of range"
  end.

(** [binary.BigEndian.PutUint32] into a fresh [[4]byte]. *)
Definition PutUint32 (v : Z) : list Z :=
  [Z.land (Z.shiftr v 24) 255; Z.land (Z.shiftr v 16) 255;
   Z.land (Z.shiftr v 8) 255; Z.land v 255].

(** [binary.BigEndian.PutUint16] into a fresh [[2]byte]. *)
Definition PutUint16 (v : Z) : list Z :=
  [Z.land (Z.shiftr v 8) 255; Z.land v 255].

End binary.

(** ** The persistent store *)

(** The relational database, as far as the code relies on it.
    Modelled from the spec: the schema is not part of the source; the
    tables are [announce_log], [files], [files_users] and [users], with
    unique keys [files.info_hash], [files_users.(file_id, user_id)] and
    [users.username].  Strings compare by exact equality. *)
Record Tables := mkTables {
  announce_log : list AnnounceLog;
  files : list FileRecord;
  files_users : list FileUserRecord;
  users : list UserRecord
}.

(** What the server answers to the operations of one call: an error for
    the connection, the begin, the statement, the commit or the query,
    where there is one. *)
Record Faults := mkFaults {
  connect_err : option string;
  begin_err : option string;
  exec_err : option string;
  commit_err : option string;
  query_err : option string
}.

Definition no_faults : Faults := mkFaults None None None None None.

(** The state the persistent operations run in: the tables, the faults,
    the server's clock, what was sent on [Static.LogChan], and what was
    printed through the standard logger. *)
Record Store := mkStore {
  tables : Tables;
  faults : Faults;
  now : Z;
  logChan : list string;
  stdlog : list string
}.

(** The persistent operations are computations on the store that end in
    a value or in a panic. *)
Definition M (A : Type) : Type := Store → result (A * Store).

Definition ret {A} (a : A) : M A := fun w => Ok (a, w).

Definition bind {A B} (c : M A) (k : A → M B) : M B :=
  fun w =>
    match c w with
    | Ok (a, w') => k a w'
    | Panics msg => Panics msg
    end.

Notation "x <- c ;; k" := (bind c (fun x => k))
  (at level 20, c at level 99, k at level 200, only parsing).

(** [Static.LogChan <- msg], on the store and as a step. *)
Definition log_send (msg : string) (w : Store) : Store :=
  mkStore (tables w) (faults w) (now w) (logChan w ++ [msg]) (stdlog w).

Definition LogChan_send (msg : string) : M unit :=
  fun w => Ok (tt, log_send msg w).

(** [log.Println(...)] of the standard logger. *)
Definition log_Println (msg : string) : M unit :=
  fun w => Ok (tt, mkStore (tables w) (faults w) (now w) (logChan w) (stdlog w ++ [msg])).

(** The statements of the [Save] methods. *)
Inductive stmt :=
| InsertAnnounceLog (a : AnnounceLog)
| UpsertFile (f : FileRecord)
| UpsertFileUser (f : FileUserRecord)
| UpsertUser (u : UserRecord).

Definition next_id {A} (id : A → Z) (rows : list A) : Z :=
  1 + foldr Z.max 0 (map id rows).

Definition same_file_user (a b : FileUserRecord) : bool :=
  (fu_FileId a =? fu_FileId b) && (fu_UserId a =? fu_UserId b).

(** The effect of a statement on the tables at time [t]:
    [INSERT ... ON DUPLICATE KEY UPDATE] rewrites the row with the same
    unique key when there is one and adds a row otherwise. *)
Definition apply_stmt (t : Z) (s : stmt) (T : Tables) : Tables :=
  match s with
  | InsertAnnounceLog a =>
      let row := mkAnnounceLog (next_id al_Id (announce_log T)) (al_InfoHash a)
                   (al_PeerId a) (al_Ip a) (al_Port a) (al_Uploaded a)
                   (al_Downloaded a) (al_Left a) (al_Event a) t in
      mkTables (announce_log T ++ [row]) (files T) (files_users T) (users T)
  | UpsertFile f =>
      let same r := String.eqb (fr_InfoHash r) (fr_InfoHash f) in
      let rows :=
        if existsb same (files T)
        then map (fun r => if same r
                           then mkFileRecord (fr_Id r) (fr_InfoHash r) (fr_Verified f)
                                  (fr_Completed f) (fr_CreateTime r) t
                           else r) (files T)
        else files T ++ [mkFileRecord (next_id fr_Id (files T)) (fr_InfoHash f)
                           (fr_Verified f) (fr_Completed f) t t] in
      mkTables (announce_log T) rows (files_users T) (users T)
  | UpsertFileUser f =>
      let rows :=
        if existsb (same_file_user f) (files_users T)
        then map (fun r => if same_file_user f r
                           then mkFileUserRecord (fu_FileId r) (fu_UserId r) (fu_Active f)
                                  (fu_Completed f) (fu_Announced f) (fu_Uploaded f)
                                  (fu_Downloaded f) (fu_Left f) t
                           else r) (files_users T)
        else files_users T ++ [mkFileUserRecord (fu_FileId f) (fu_UserId f) (fu_Active f)
                                 (fu_Completed f) (fu_Announced f) (fu_Uploaded f)
                                 (fu_Downloaded f) (fu_Left f) t] in
      mkTables (announce_log T) (files T) rows (users T)
  | UpsertUser u =>
      let same r := String.eqb (ur_Username r) (ur_Username u) in
      let rows :=
        if existsb same (users T)
        then map (fun r => if same r
                           then mkUserRecord (ur_Id r) (ur_Username u) (ur_Passkey u)
                                  (ur_TorrentLimit u)
                           else r) (users T)
        else users T ++ [mkUserRecord (next_id ur_Id (users T)) (ur_Username u)
                           (ur_Passkey u) (ur_TorrentLimit u)] in
      mkTables (announce_log T) (files T) (files_users T) rows
  end.

(** [DbConnect]: the error, or nil. *)
Definition DbConnect : M (option string) :=
  fun w => Ok (connect_err (faults w), w).

(** An open transaction: the statements it will write on commit. *)
Definition Tx := list stmt.

(** [db.MustBegin()]: panics when the transaction cannot be opened. *)
Definition MustBegin : M Tx :=
  fun w =>
    match begin_err (faults w) with
    | Some err => Panics err
    | None => Ok ([], w)
    end.

(** [tx.Exec(query, args...)]: the transaction with the statement in
    it, and the error or nil. *)
Definition Exec (tx : Tx) (s : stmt) : M (Tx * option string) :=
  fun w =>
    match exec_err (faults w) with
    | Some err => Ok ((tx, Some err), w)
    | None => Ok ((tx ++ [s], None), w)
    end.

(** [tx.Execl(query, args...)] of sqlx: [Exec], with an error printed
    through the standard logger and not handed back.  (The line printed
    holds the query and the result as well; the error stands for it.) *)
Definition Execl (tx : Tx) (s : stmt) : M Tx :=
  r <- Exec tx s ;;
  match r.2 with
  | Some err => _ <- log_Println err ;; ret r.1
  | None => ret r.1
  end.

(** [tx.Commit()]: writes the statements of the transaction, or fails
    and writes none; the error or nil is its result. *)
Definition Commit (tx : Tx) : M (option string) :=
  fun w =>
    match commit_err (faults w) with
    | Some err => Ok (Some err, w)
    | None =>
        Ok (None, mkStore (foldl (fun T s => apply_stmt (now w) s T) (tables w) tx)
                    (faults w) (now w) (logChan w) (stdlog w))
    end.

(** [AnnounceLog.Save] *)
Definition AnnounceLog_Save (a : AnnounceLog) : M bool :=
  err <- DbConnect ;;
  match err with
  | Some e => _ <- LogChan_send e ;; ret false
  | None =>
      tx <- MustBegin ;;
      tx <- Execl tx (InsertAnnounceLog a) ;;
      _ <- Commit tx ;;
      ret true
  end.

(** [FileRecord.Save] *)
Definition FileRecord_Save (f : FileRecord) : M bool :=
  err <- DbConnect ;;
  match err with
  | Some e => _ <- LogChan_send e ;; ret false
  | None =>
      tx <- MustBegin ;;
      tx <- Execl tx (UpsertFile f) ;;
      _ <- Commit tx ;;
      ret true
  end.

(** [FileUserRecord.Save] *)
Definition FileUserRecord_Save (f : FileUserRecord) : M bool :=
  err <- DbConnect ;;
  match err with
  | Some e => _ <- LogChan_send e ;; ret false
  | None =>
      tx <- MustBegin ;;
      tx <- Execl tx (UpsertFileUser f) ;;
      _ <- Commit tx ;;
      ret true
  end.

(** [UserRecord.Save] *)
Definition UserRecord_Save (u : UserRecord) : M bool :=
  err <- DbConnect ;;
  match err with
  | Some e => _ <- LogChan_send e ;; ret false
  | None =>
      tx <- MustBegin ;;
      tx <- Execl tx (UpsertUser u) ;;
      _ <- Commit tx ;;
      ret true
  end.

(** [db.Get(&dest, "SELECT COUNT(user_id) ... WHERE cond")] on
    [files_users]: the number of rows that satisfy the condition; the
    error of [Get] is dropped, and with it the destination keeps its
    zero. *)
Definition count_files_users (cond : FileUserRecord → bool) : M Z :=
  fun w =>
    match query_err (faults w) with
    | Some _ => Ok (0, w)
    | None => Ok (Z.of_nat (List.length (List.filter cond (files_users (tables w)))), w)
    end.

(** [FileRecord.Seeders]:
    [WHERE active = 1 AND completed = 1 AND `left` = 0] *)
Definition Seeders (f : FileRecord) : M Z :=
  err <- DbConnect ;;
  match err with
  | Some e => _ <- LogChan_send e ;; ret 0
  | None =>
      count_files_users (fun r => fu_Active r && fu_Completed r && (fu_Left r =? 0))
  end.

(** [FileRecord.Leechers]:
    [WHERE active = 1 AND completed = 0 AND `left` > 0] *)
Definition Leechers (f : FileRecord) : M Z :=
  err <- DbConnect ;;
  match err with
  | Some e => _ <- LogChan_send e ;; ret 0
  | None =>
      count_files_users (fun r => fu_Active r && negb (fu_Completed r) && (0 <? fu_Left r))
  end.

(** *** The peer list *)

(** [SELECT DISTINCT]: the first occurrence of each row. *)
Fixpoint distinct {A} `{EqDecision A} (seen : list A) (l : list A) : list A :=
  match l with
  | [] => []
  | x :: rest =>
      if bool_decide (x ∈ seen) then distinct seen rest
      else x :: distinct (x :: seen) rest
  end.

(** The query of [PeerList]: the join of [announce_log], [files] and
    [files_users] on the info hash and the file id, for the active
    relations of the file, leaving out the address [exclude]; distinct
    (ip, port) pairs, at most [numwant] of them. *)
Definition peer_rows (T : Tables) (info_hash exclude : string) (numwant : Z)
    : list (string * Z) :=
  let joined :=
    al ← announce_log T;
    f ← files T;
    fu ← files_users T;
    if String.eqb (al_InfoHash al) (fr_InfoHash f)
       && (fr_Id f =? fu_FileId fu)
       && fu_Active fu
       && String.eqb (fr_InfoHash f) info_hash
       && negb (String.eqb (al_Ip al) exclude)
    then [(al_Ip al, al_Port al)] else [] in
  take (Z.to_nat numwant) (distinct [] joined).

(** [db.Queryx(query, f.InfoHash, exclude, numwant)]: the error, or the
    rows; the server refuses a negative [LIMIT]. *)
Definition Queryx (info_hash exclude : string) (numwant : Z)
    : M (string + list (string * Z)) :=
  fun w =>
    match query_err (faults w) with
    | Some err => Ok (inl err, w)
    | None =>
        if numwant <? 0
        then Ok (inl "Error 1210: Incorrect arguments to mysqld_stmt_execute", w)
        else Ok (inr (peer_rows (tables w) info_hash exclude numwant), w)
    end.

(** The anonymous struct the rows are scanned into. *)
Record Peer := mkPeer {
  Ip : string;
  Port : Z
}.

(** [rows.StructScan(&peer)]: the columns are assigned in order; a port
    that does not fit [uint16] fails the scan there, the error is
    dropped and the field keeps what it held. *)
Definition StructScan (row : string * Z) (peer : Peer) : Peer :=
  mkPeer row.1
    (if (0 <=? row.2) && (row.2 <? 65536) then row.2 else Port peer).

(** A library call that may panic, as a step. *)
Definition lift {A} (r : result A) : M A :=
  fun w =>
    match r with
    | Ok a => Ok (a, w)
    | Panics msg => Panics msg
    end.

(** The loop of [PeerList] over the rows: each row is scanned, reported
    to the log, and its address and port appended to the buffer. *)
Fixpoint PeerList_rows (rows : list (string * Z)) (peer : Peer) (buf : list Z)
    : M (list Z) :=
  match rows with
  | [] => ret buf
  | row :: rest =>
      let peer := StructScan row peer in
      _ <- LogChan_send ("peer: [ip: " +:+ Ip peer +:+ ", port: "
                         +:+ strconv.Itoa (Port peer) +:+ "]") ;;
      v <- lift (binary.Uint32 (net.To4 (net.ParseIP (Ip peer)))) ;;
      let ip := binary.PutUint32 v in
      let port := binary.PutUint16 (Port peer) in
      PeerList_rows rest peer (buf ++ (ip ++ port))
  end.

(** [FileRecord.PeerList]; the result is the buffer, [None] for a nil
    slice. *)
Definition PeerList (f : FileRecord) (exclude : string) (numwant : Z)
    : M (option (list Z)) :=
  err <- DbConnect ;;
  match err with
  | Some e => _ <- LogChan_send e ;; ret None
  | None =>
      let peer := mkPeer "" 0 in
      let buf := [] in
      rows <- Queryx (fr_InfoHash f) exclude numwant ;;
      match rows with
      | inl e => _ <- LogChan_send e ;; ret (Some buf)
      | inr rows =>
          buf <- PeerList_rows rows peer buf ;;
          ret (Some buf)
      end
  end.

(** * More of the code *)

(** ** [DbManager]: the notice and the shutdown goroutine *)

(** What [DbManager] sends on [Static.LogChan] in the branch the
    configuration selects: the loops send nothing, the last branch
    sends its notice and returns. *)
Definition DbManager_notice (cfg : Config) : list string :=
  if Map cfg && Sql cfg then []
  else if Map cfg then []
  else if Sql cfg then []
  else ["No database in use."].

(** What the shutdown goroutine sends, and on which channel. *)
Inductive signal :=
| OnShutdownChan (v : bool)
| OnLogChan (msg : string)
| OnDbDoneChan (v : bool).

(** The shutdown goroutine of [DbManager], from the value [v] it
    receives on [Static.ShutdownChan]: it sends [v] back, then [true],
    shuts the map store down if it is on, then the SQL store if it is
    on, and signals on [dbDoneChan].  [MapDb.Shutdown] is the method
    above, called through the pointer [mapDb].  [SqlDb] is declared
    outside the files at hand: [sqlDb_Shutdown] stands for its
    [Shutdown], the signals it sends before it returns, or [None] when
    it does not return.  The result is [None] while the goroutine has
    not finished. *)
Definition DbManager_shutdown (fuel : nat) (cfg : Config)
    (env : nat → MapDb → MapDb) (mapDb : MapDb)
    (sqlDb_Shutdown : option (list signal)) (v : bool) : option (list signal) :=
  let sent := [OnShutdownChan v; OnShutdownChan true] in
  sent ←
    (if Map cfg
     then r ← Shutdown fuel env mapDb []; Some (sent ++ (OnLogChan <$> r.2))
     else Some sent);
  sent ←
    (if Sql cfg
     then s ← sqlDb_Shutdown; Some (sent ++ s)
     else Some sent);
  Some (sent ++ [OnDbDoneChan true]).

(** * The vocabulary of the properties *)

(** ** The heap and the trie *)

(** Locations in use lie below the next free one. *)
Definition heap_ok (h : Heap) : Prop :=
  ∀ l o, objs h !! l = Some o → (l < brk h)%nat.

(** [m] is a trie container of the heap. *)
Definition is_container (h : Heap) (m : loc) : Prop :=
  ∃ mm, objs h !! m = Some (MapObj mm).

(** Every pending call holds a container of the heap. *)
Definition world_ok (w : World) : Prop :=
  heap_ok (heap w) ∧ Forall (fun t => is_container (heap w) t.1) (pool w).

(** The single hexadecimal digits. *)
Definition hex_digits : list string :=
  ["0"; "1"; "2"; "3"; "4"; "5"; "6"; "7"; "8"; "9";
   "a"; "b"; "c"; "d"; "e"; "f"].

(** Both backends on, capacity 16. *)
Definition config16 : Config := mkConfig true true 16.

(** The struct and the world as [init] leaves them for capacity 16. *)
Definition ready : MapDb * World :=
  default (zero_MapDb, empty_world) (init config16 zero_MapDb empty_world).

(** [ready] once the first pending call has run. *)
Definition ready_then_first : World :=
  match run [0%nat] ready.2 with
  | Running w => w
  | _ => ready.2
  end.

(** ** Requests *)

(** A request that carries an announce. *)
Definition sample_log : AnnounceLog :=
  mkAnnounceLog 1 "aa" "peer" "192.0.2.1" 6881 0 0 0 "started" 0.

Definition sample_request : Request := mkRequest (VAnnounceLog sample_log).

(** Whether some object of the heap holds an entity. *)
Definition entity_in (o : object) : bool :=
  match o with
  | MapObj mm => existsb (fun kv => is_entity kv.2) (map_to_list mm)
  | IndexObj _ => false
  | Cell v => is_entity v
  end.

(** Whether the heap holds an entity anywhere. *)
Definition holds_entity (h : Heap) : bool :=
  existsb (fun p => entity_in p.2) (map_to_list (objs h)).

(** ** [Shutdown] *)

(** The other goroutines clear [Busy] behind the pointer at the first
    sleep; a [Shutdown] called while it was set polls on. *)
Definition clear_Busy (i : nat) (d : MapDb) : MapDb :=
  mkMapDb (Id d) false (MapStor d) (MapLookup d).

(** A struct with [Busy] set. *)
Definition busy_MapDb : MapDb := mkMapDb "" true None None.

(** ** The router *)

(** The requests taken from the general channel, in order. *)
Definition general_arrivals (arrivals : list arrival) : list Request :=
  omap (fun a => match a with OnRequestChan r => Some r | OnPersistentChan _ => None end)
    arrivals.


(** A request without payload. *)
Definition read_request : Request := mkRequest Nil.



(** The send statements the turns for these arrivals run, one turn
    after the other, were every send to complete. *)
Definition routes (cfg : Config) (arrivals : list arrival) : list send :=
  arrivals ≫= (fun a => default [] (DbManager_turn cfg a)).



(** ** The persistent store *)

(** The statement or the commit is refused. *)
Definition write_failed (w : Store) : Prop :=
  is_Some (exec_err (faults w)) ∨ is_Some (commit_err (faults w)).

(** The answer is [true], the tables are what they were in [w] and
    nothing has been sent on the log channel. *)
Definition true_without_write (w : Store) (r : result (bool * Store)) : Prop :=
  ∃ w', r = Ok (true, w') ∧ tables w' = tables w ∧ logChan w' = logChan w.

(** Two files; on each, one user seeding and one leeching; two
    announces for the first file and one for the second. *)
Definition sample_tables : Tables := mkTables
  [mkAnnounceLog 1 "aa" "peer1" "192.0.2.1" 6881 0 0 0 "started" 90;
   mkAnnounceLog 2 "aa" "peer2" "203.0.113.5" 51413 0 0 0 "started" 91;
   mkAnnounceLog 3 "bb" "peer3" "198.51.100.7" 6881 0 0 0 "started" 92]
  [mkFileRecord 1 "aa" true 1 80 80; mkFileRecord 2 "bb" true 1 81 81]
  [mkFileUserRecord 1 10 true true 1 0 0 0 90;
   mkFileUserRecord 1 12 true false 1 0 0 500 91;
   mkFileUserRecord 2 11 true true 1 0 0 0 92;
   mkFileUserRecord 2 13 true false 1 0 0 700 93]
  [mkUserRecord 10 "ann" "k10" 5; mkUserRecord 11 "bob" "k11" 5;
   mkUserRecord 12 "cyd" "k12" 5; mkUserRecord 13 "dee" "k13" 5].

(** A store over these tables, without faults. *)
Definition sample_store : Store := mkStore sample_tables no_faults 100 [] [].

(** The statement is refused by the server. *)
Definition exec_fails : Store :=
  mkStore sample_tables (mkFaults None None (Some "Error 1054: Unknown column") None None)
    100 [] [].

(** The commit is refused by the server. *)
Definition commit_fails : Store :=
  mkStore sample_tables (mkFaults None None None (Some "driver: bad connection") None)
    100 [] [].

(** The first file, and records to save. *)
Definition sample_file : FileRecord := mkFileRecord 1 "aa" true 1 80 80.
Definition sample_file_user : FileUserRecord := mkFileUserRecord 1 14 true false 1 0 0 900 0.
Definition sample_user : UserRecord := mkUserRecord 0 "eve" "k14" 5.

(** The relations of the files with the info hash of [f]. *)
Definition of_file (T : Tables) (f : FileRecord) (r : FileUserRecord) : bool :=
  existsb (fun g => (fr_Id g =? fu_FileId r)
                    && String.eqb (fr_InfoHash g) (fr_InfoHash f)) (files T).

(** The counts as the claim words them: the distinct users that are
    active, completed and have nothing left (active, not completed and
    something left) among the relations of the file. *)
Definition seeders_of (T : Tables) (f : FileRecord) : Z :=
  Z.of_nat (List.length (remove_dups (map fu_UserId
    (List.filter (fun r => of_file T f r && fu_Active r && fu_Completed r && (fu_Left r =? 0))
       (files_users T))))).

(** The same for the leechers. *)
Definition leechers_of (T : Tables) (f : FileRecord) : Z :=
  Z.of_nat (List.length (remove_dups (map fu_UserId
    (List.filter (fun r => of_file T f r && fu_Active r && negb (fu_Completed r)
                           && (0 <? fu_Left r))
       (files_users T))))).

(** ** Numerals and addresses *)

(** [s] is made of decimal digits. *)
Fixpoint all_dec (s : string) : bool :=
  match s with
  | EmptyString => true
  | String c s' => net.is_dec c && all_dec s'
  end.

(** The number a digit string extends [n] to. *)
Fixpoint dec_value (s : string) (n : Z) : Z :=
  match s with
  | EmptyString => n
  | String c s' => dec_value s' (n * 10 + (net.code c - 48))
  end.

(** What may follow a numeral: the end of the string, or a character
    that is not a digit. *)
Definition ends_numeral (rest : string) : Prop :=
  match rest with
  | EmptyString => True
  | String c _ => net.is_dec c = false
  end.

(** [Itoa] of an octet is a numeral that reads back as the octet. *)
Definition octet_numeral (n : Z) : bool :=
  all_dec (strconv.Itoa n)
  && negb (String.eqb (strconv.Itoa n) EmptyString)
  && (dec_value (strconv.Itoa n) 0 =? n).

(** A peer as the claim has it: four octets and a port. *)
Record CompactPeer := mkCompactPeer {
  octet1 : Z;
  octet2 : Z;
  octet3 : Z;
  octet4 : Z;
  port_of : Z
}.

(** Octets fit a byte, the port fits sixteen bits. *)
Definition valid_peer (p : CompactPeer) : Prop :=
  0 ≤ octet1 p < 256 ∧ 0 ≤ octet2 p < 256 ∧ 0 ≤ octet3 p < 256 ∧
  0 ≤ octet4 p < 256 ∧ 0 ≤ port_of p < 65536.

(** The address in dotted-quad notation. *)
Definition ipv4_string (p : CompactPeer) : string :=
  strconv.Itoa (octet1 p) +:+ "." +:+ strconv.Itoa (octet2 p) +:+ "."
  +:+ strconv.Itoa (octet3 p) +:+ "." +:+ strconv.Itoa (octet4 p).

(** The row the query returns for the peer. *)
Definition row_of (p : CompactPeer) : string * Z := (ipv4_string p, port_of p).

(** The six bytes of the compact form: the octets, then the port with
    its high byte first. *)
Definition compact (p : CompactPeer) : list Z :=
  [octet1 p; octet2 p; octet3 p; octet4 p; port_of p / 256; port_of p mod 256].

(** What the loop reports for a peer. *)
Definition peer_message (p : CompactPeer) : string :=
  "peer: [ip: " +:+ ipv4_string p +:+ ", port: " +:+ strconv.Itoa (port_of p) +:+ "]".

(** The peers 192.0.2.1:6881 and 203.0.113.5:51413, and their
    compact form. *)
Definition example_peers : list CompactPeer :=
  [mkCompactPeer 192 0 2 1 6881; mkCompactPeer 203 0 113 5 51413].

(** C0 00 02 01 1A E1 CB 00 71 05 C8 D5 *)
Definition example_bytes : list Z :=
  [0xC0; 0x00; 0x02; 0x01; 0x1A; 0xE1; 0xCB; 0x00; 0x71; 0x05; 0xC8; 0xD5].

(** What is sent on the log channel for the two example peers. *)
Definition example_log : list string :=
  ["peer: [ip: 192.0.2.1, port: 6881]"; "peer: [ip: 203.0.113.5, port: 51413]"].

(** The tables with one more announce on the first file, from an
    address that is no IPv4 address. *)
Definition tables_with_ip (ip : string) : Tables :=
  mkTables
    (announce_log sample_tables
     ++ [mkAnnounceLog 4 "aa" "peer4" ip 6881 0 0 0 "started" 93])
    (files sample_tables) (files_users sample_tables) (users sample_tables).

(** A store over these tables. *)
Definition store_with_ip (ip : string) : Store :=
  mkStore (tables_with_ip ip) no_faults 100 [] [].

(** ** The trie under construction *)

(** The sixteen keys [addMap] gives a container. *)
Definition trie_keys : list string := child_key <$> seqZ 0 16.

(** The pending calls [addMap] adds when the next free location is [b]. *)
Definition spawned (b : loc) (size : Z) (n : nat) : list (loc * Z) :=
  (fun j => ((b + j)%nat, int_wrap (size - 1))) <$> seq 0 n.

(** A world with one empty container, at location 0. *)
Definition one_container : World := mkWorld (make_map empty_heap).2 [] [].

(** *** Statement by statement *)

(** The first [n] keys of a container. *)
Definition keys_below (n : Z) : gset string := list_to_set (child_key <$> seqZ 0 n).

(** The child a goroutine has made and not yet handed to a goroutine of
    its own. *)
Definition made (h : Heap) (g : goroutine) : list loc :=
  match g with
  | InAddMap m _ i (AtStore l) _ | InAddMap m _ i (AtSpawn l) _ => [l]
  | InAddMap m _ i AtLoad _ =>
      match children m h !! child_key i with
      | Some (MapRef l) => [l]
      | _ => []
      end
  | _ => []
  end.

(** The containers a goroutine has in hand: the one whose loop it runs
    and the child it has made. *)
Definition in_hand (h : Heap) (g : goroutine) : list loc :=
  match g with
  | InAddMap m _ _ _ _ => m :: made h g
  | _ => []
  end.

(** The number of keys the loop of a goroutine has stored. *)
Definition stored_keys (g : goroutine) : Z :=
  match g with
  | InAddMap _ _ i (AtMake | AtStore _) _ => i
  | InAddMap _ _ i (AtLoad | AtSpawn _) _ => i + 1
  | _ => 0
  end.

(** A goroutine in the loop of [addMap] is at an iteration from 0 to
    15; its container has exactly the keys stored so far, the last of
    them bound to a container when it is about to be read back; and the
    child it has made is an empty container. *)
Definition at_work (h : Heap) (g : goroutine) : Prop :=
  match g with
  | InAddMap m _ i at_pc _ =>
      0 ≤ i < 16 ∧
      (∃ mm, objs h !! m = Some (MapObj mm) ∧ dom mm = keys_below (stored_keys g) ∧
             (at_pc = AtLoad → ∃ l, mm !! child_key i = Some (MapRef l))) ∧
      (∀ l, l ∈ made h g → objs h !! l = Some (MapObj ∅))
  | _ => True
  end.

(** The containers in the hands of the goroutines of a machine. *)
Definition all_in_hand (M : Machine) : list loc :=
  goroutines M ≫= in_hand (mheap M).

(** The trie under construction: every goroutine is at work as above,
    no container is in two hands, and a container in no hand has the
    sixteen keys. *)
Definition construction_inv (M : Machine) : Prop :=
  heap_ok (mheap M) ∧
  Forall (at_work (mheap M)) (goroutines M) ∧
  NoDup (all_in_hand M) ∧
  ∀ l mm, objs (mheap M) !! l = Some (MapObj mm) →
    l ∈ all_in_hand M ∨ dom mm = list_to_set trie_keys.

(** ** The modes of the router *)

(** The map store alone, the SQL store alone, neither. *)
Definition config_map_only : Config := mkConfig true false 16.
Definition config_sql_only : Config := mkConfig false true 16.
Definition config_neither : Config := mkConfig false false 16.

(** The request an arrival carries. *)
Definition request_of (a : arrival) : Request :=
  match a with
  | OnRequestChan r | OnPersistentChan r => r
  end.

(** 150 writes on the general channel. *)
Definition many_writes : list arrival := replicate 150 (OnRequestChan sample_request).

(** Three arrivals: a write, a persistent-intent request, a read. *)
Definition sample_arrivals : list arrival :=
  [OnRequestChan sample_request; OnPersistentChan read_request;
   OnRequestChan read_request].

(** * Properties *)

(** ** The heap and the trie construction *)

Lemma heap_ok_fresh h : heap_ok h → objs h !! brk h = None.
Proof.
  intros Hok. destruct (objs h !! brk h) eqn:E; [|done].
  apply Hok in E. lia.
Qed.

Lemma empty_world_ok : world_ok empty_world.
Proof. split; [|constructor]. intros l o; simpl. by rewrite lookup_empty. Qed.

Lemma make_map_spec h :
  heap_ok h →
  heap_ok (make_map h).2 ∧
  brk (make_map h).2 = S (brk h) ∧
  containers (make_map h).2 = S (containers h) ∧
  is_container (make_map h).2 (make_map h).1 ∧
  (∀ m, is_container h m → is_container (make_map h).2 m).
Proof.
  intros Hok. pose proof (heap_ok_fresh h Hok) as Hfresh.
  unfold make_map, containers, is_container; simpl. repeat split.
  - intros l o; simpl. rewrite lookup_insert. case_decide; intros E.
    + subst. simpl. lia.
    + apply Hok in E. simpl. lia.
  - rewrite map_filter_insert_True by done.
    apply map_size_insert_None. by rewrite map_lookup_filter, Hfresh.
  - exists ∅. by rewrite lookup_insert_eq.
  - intros m [mm Hm]. exists mm. rewrite lookup_insert_ne; [done|].
    intros <-. congruence.
Qed.

Lemma make_index_spec h :
  heap_ok h →
  heap_ok (make_index h).2 ∧
  brk (make_index h).2 = S (brk h) ∧
  containers (make_index h).2 = containers h ∧
  (∀ m, is_container h m → is_container (make_index h).2 m).
Proof.
  intros Hok. pose proof (heap_ok_fresh h Hok) as Hfresh.
  unfold make_index, containers, is_container; simpl. repeat split.
  - intros l o; simpl. rewrite lookup_insert. case_decide; intros E.
    + subst. simpl. lia.
    + apply Hok in E. simpl. lia.
  - rewrite map_filter_insert_False by (simpl; congruence).
    by rewrite delete_id.
  - intros m [mm Hm]. exists mm. rewrite lookup_insert_ne; [done|].
    intros <-. congruence.
Qed.

Lemma map_store_spec m c v h mm :
  heap_ok h → objs h !! m = Some (MapObj mm) →
  ∃ h', map_store m c v h = Some h' ∧
    heap_ok h' ∧ brk h' = brk h ∧
    containers h' = containers h ∧
    objs h' !! m = Some (MapObj (<[c := v]> mm)) ∧
    (∀ m', is_container h m' → is_container h' m').
Proof.
  intros Hok Hm. unfold map_store. rewrite Hm. eexists; split; [done|].
  unfold containers, is_container; simpl. repeat split.
  - intros l o; simpl. rewrite lookup_insert. case_decide; intros E.
    + subst. by apply Hok in Hm.
    + by apply Hok in E.
  - rewrite map_filter_insert_True by done.
    apply map_size_insert_Some. rewrite map_lookup_filter, Hm. by eexists.
  - by rewrite lookup_insert_eq.
  - intros m' [mm' Hm']. destruct (decide (m = m')) as [<-|Hne].
    + eexists. by rewrite lookup_insert_eq.
    + exists mm'. by rewrite lookup_insert_ne.
Qed.

(** [addMap] never fails on a container, whatever [size] is: it adds
    [n] containers and [n] pending calls, each with [size - 1] as an
    [int]. *)
Lemma addMap_from_spec n : ∀ i m size w,
  world_ok w → is_container (heap w) m →
  ∃ w' new, addMap_from n i m size w = Some w' ∧
    world_ok w' ∧
    pool w' = pool w ++ new ∧ List.length new = n ∧
    Forall (fun t => t.2 = int_wrap (size - 1)) new ∧
    containers (heap w') = (containers (heap w) + n)%nat ∧
    brk (heap w') = (brk (heap w) + n)%nat ∧
    LogChan w' = LogChan w ∧
    (∀ m', is_container (heap w) m' → is_container (heap w') m').
Proof.
  induction n as [|n IH]; intros i m size w [Hheap Hpool] Hm.
  - exists w, []. rewrite app_nil_r. repeat split; auto.
  - cbn [addMap_from].
    destruct (make_map_spec (heap w) Hheap) as (Hok1 & Hbrk1 & Hcnt1 & Hnew & Hkeep1).
    destruct (make_map (heap w)) as [l h1] eqn:Emk. simpl in *.
    destruct (Hkeep1 m Hm) as [mm Hmm].
    destruct (map_store_spec m (child_key i) (MapRef l) h1 mm Hok1 Hmm)
      as (h2 & -> & Hok2 & Hbrk2 & Hcnt2 & Hlook & Hkeep2).
    cbn [mbind option_bind]. unfold map_load. rewrite Hlook.
    cbn [mbind option_bind]. rewrite lookup_insert_eq. cbn.
    set (w1 := mkWorld h2 (pool w ++ [(l, int_wrap (size - 1))]) (LogChan w)).
    assert (world_ok w1) as Hw1.
    { split; [done|]. apply Forall_app. split.
      - eapply Forall_impl; [exact Hpool|]. intros t Ht. auto.
      - constructor; [|constructor]. auto. }
    assert (is_container (heap w1) m) as Hm1 by (apply Hkeep2; eauto).
    destruct (IH (i + 1) m size w1 Hw1 Hm1)
      as (w' & new & Hrun & Hok' & Hp & Hlen & Hsz & Hcnt & Hbrk & Hlog & Hkeep).
    exists w', ((l, int_wrap (size - 1)) :: new). repeat split; try apply Hok'; auto.
    + rewrite Hp. simpl. by rewrite <- app_assoc.
    + simpl. by rewrite Hlen.
    + rewrite Hcnt. simpl. rewrite Hcnt2, Hcnt1. lia.
    + rewrite Hbrk. simpl. rewrite Hbrk2, Hbrk1. lia.
Qed.

(** A scheduling step with a call pending runs it to the end. *)
Lemma run_goroutine_spec k w :
  world_ok w → pool w ≠ [] →
  ∃ w', run_goroutine k w = Running w' ∧
    world_ok w' ∧
    List.length (pool w') = (List.length (pool w) + 15)%nat ∧
    containers (heap w') = (containers (heap w) + 16)%nat ∧
    LogChan w' = LogChan w.
Proof.
  intros [Hheap Hpool] Hne. unfold run_goroutine.
  set (j := (k mod List.length (pool w))%nat).
  assert (j < List.length (pool w))%nat as Hj.
  { apply Nat.mod_upper_bound. destruct (pool w); simpl; [done|lia]. }
  destruct (lookup_lt_is_Some_2 _ _ Hj) as [[m size] Hlook].
  rewrite Hlook.
  set (w0 := mkWorld (heap w) (delete j (pool w)) (LogChan w)).
  assert (world_ok w0) as Hw0.
  { split; [done|]. simpl. by apply Forall_delete. }
  assert (is_container (heap w0) m) as Hm.
  { rewrite Forall_lookup in Hpool. apply (Hpool _ _ Hlook). }
  destruct (addMap_from_spec 16 0 m size w0 Hw0 Hm)
    as (w' & new & Hrun & Hok' & Hp & Hlen & _ & Hcnt & _ & Hlog & _).
  unfold addMap. rewrite Hrun. exists w'. repeat split; try apply Hok'; auto.
  rewrite Hp, length_app, Hlen. simpl. rewrite length_delete by eauto. lia.
Qed.

Lemma run_spec ks : ∀ w,
  world_ok w → pool w ≠ [] →
  ∃ w', run ks w = Running w' ∧
    world_ok w' ∧
    List.length (pool w') = (List.length (pool w) + 15 * List.length ks)%nat ∧
    containers (heap w') = (containers (heap w) + 16 * List.length ks)%nat ∧
    LogChan w' = LogChan w.
Proof.
  induction ks as [|k ks IH]; intros w Hok Hne.
  - exists w. simpl. repeat split; auto; try apply Hok; lia.
  - destruct (run_goroutine_spec k w Hok Hne) as (w1 & Hstep & Hok1 & Hp1 & Hc1 & Hl1).
    assert (pool w1 ≠ []) as Hne1.
    { intros E. rewrite E in Hp1. simpl in Hp1. lia. }
    destruct (IH w1 Hok1 Hne1) as (w' & Hrun & Hok' & Hp & Hc & Hl).
    exists w'. simpl. rewrite Hstep. repeat split; auto; try apply Hok'.
    + rewrite Hp, Hp1. simpl. lia.
    + rewrite Hc, Hc1. simpl. lia.
    + congruence.
Qed.

(** [init] on a struct without its maps makes the root, its sixteen
    children and the lookup index, and leaves sixteen calls pending. *)
Lemma init_fresh cfg db w :
  world_ok w → MapStor db = None → MapLookup db = None →
  ∃ db' w', init cfg db w = Some (db', w') ∧
    world_ok w' ∧
    is_Some (MapStor db') ∧ is_Some (MapLookup db') ∧
    List.length (pool w') = (List.length (pool w) + 16)%nat ∧
    containers (heap w') = (containers (heap w) + 17)%nat ∧
    brk (heap w') = (brk (heap w) + 18)%nat.
Proof.
  intros [Hheap Hpool] Hs Hl. unfold init. rewrite Hs.
  destruct (make_map_spec (heap w) Hheap) as (Hok1 & Hbrk1 & Hcnt1 & Hnew & Hkeep1).
  destruct (make_map (heap w)) as [l h1] eqn:Emk. simpl in *.
  set (w1 := mkWorld h1 (pool w) (LogChan w)).
  assert (world_ok w1) as Hw1.
  { split; [done|]. simpl. eapply Forall_impl; [exact Hpool|]. auto. }
  destruct (addMap_from_spec 16 0 l (ceil_log16 (Size cfg)) w1 Hw1 Hnew)
    as (w2 & new & Hrun & [Hok2 Hpool2] & Hp & Hlen & _ & Hcnt & Hbrk & _ & Hkeep).
  destruct (make_index_spec (heap w2) Hok2) as (Hok3 & Hbrk3 & Hcnt3 & Hkeep3).
  eexists _, _. unfold addMap. rewrite Hrun. cbn. rewrite Hl.
  split; [reflexivity|]. unfold make_index in *. simpl in *.
  repeat split; eauto.
  - eapply Forall_impl; [exact Hpool2|]. auto.
  - rewrite Hp, length_app, Hlen. done.
  - rewrite Hcnt3, Hcnt, Hcnt1. lia.
  - rewrite Hbrk, Hbrk1. lia.
Qed.

(** With both maps in place [init] does nothing. *)
Lemma init_allocated cfg db w :
  is_Some (MapStor db) → is_Some (MapLookup db) →
  init cfg db w = Some (db, w).
Proof.
  intros [s Hs] [l Hl]. unfold init. rewrite Hs. cbn. by rewrite Hl.
Qed.

(** *** The construction does not stop *)

(** C2 (the code against the claim).  Whatever the configured size and
    whatever order the goroutines run in, the construction started by
    [init] is never over: after any number of scheduling steps calls
    are still pending (fifteen more with each step) and sixteen more
    containers have been made with each step.  The depth budget is
    handed down and never looked at. *)
Theorem addMap_never_stops (cfg : Config) (ks : list nat) :
  ∃ db w w',
    init cfg zero_MapDb empty_world = Some (db, w) ∧
    run ks w = Running w' ∧
    List.length (pool w') = (16 + 15 * List.length ks)%nat ∧
    containers (heap w') = (17 + 16 * List.length ks)%nat.
Proof.
  destruct (init_fresh cfg zero_MapDb empty_world empty_world_ok eq_refl eq_refl)
    as (db & w & Hinit & Hok & _ & _ & Hp & Hc & _).
  assert (pool w ≠ []) as Hne.
  { intros E. rewrite E in Hp. simpl in Hp. lia. }
  destruct (run_spec ks w Hok Hne) as (w' & Hrun & _ & Hp' & Hc' & _).
  exists db, w, w'. repeat split; auto.
  - rewrite Hp', Hp. simpl. lia.
  - rewrite Hc', Hc. unfold containers; simpl.
    rewrite map_filter_empty, map_size_empty. lia.
Qed.

(** A call with no depth left still makes its sixteen children and
    starts sixteen calls, each with depth [-1]. *)
Example addMap_depth_zero :
  pool <$> addMap 0%nat 0 (mkWorld (make_map empty_heap).2 [] [])
  = Some (map (fun l => (l, -1)) (seq 1 16)).
Proof. vm_compute. reflexivity. Qed.

(** *** The keys of the trie *)

(** C3 (the code against the claim).  For capacity 16 the depth is 1.
    The root gets sixteen children, but their keys are the hexadecimal
    dumps of the decimal numerals "0" to "15", two or four characters
    long: no single hexadecimal digit is a key of the root, so no
    one-digit string addresses a container.  And the children are not
    leaves: once its goroutine has run, the child under "30" has
    sixteen children of its own. *)
Theorem trie_keys_not_hex_digits :
  ceil_log16 (Size config16) = 1 ∧
  ∃ db w root,
    init config16 zero_MapDb empty_world = Some (db, w) ∧
    MapStor db = Some root ∧
    dom (children root (heap w)) =
      list_to_set ["30"; "31"; "32"; "33"; "34"; "35"; "36"; "37"; "38"; "39";
                   "3130"; "3131"; "3132"; "3133"; "3134"; "3135"] ∧
    forallb (fun c => bool_decide (children root (heap w) !! c = None)) hex_digits = true ∧
    ∃ w' child,
      run [0%nat] w = Running w' ∧
      children root (heap w') !! "30" = Some (MapRef child) ∧
      size (children child (heap w')) = 16%nat.
Proof.
  split; [reflexivity|].
  exists ready.1, ready.2, 0%nat.
  split; [vm_compute; reflexivity|].
  split; [vm_compute; reflexivity|].
  split; [vm_compute; reflexivity|].
  split; [vm_compute; reflexivity|].
  exists ready_then_first, 1%nat.
  split; [vm_compute; reflexivity|].
  split; vm_compute; reflexivity.
Qed.

(** *** [init] is not idempotent for its caller *)

(** C8 (the code against the claim).  [init] assigns the maps it makes
    to its own copy of the struct.  After [d.init()] the caller's [d]
    still has no maps, and a second [d.init()] makes a second root,
    sixteen more children and a second lookup index: two calls leave 34
    containers and 36 objects, where one call leaves 17 and 18. *)
Theorem init_twice_allocates_twice (cfg : Config) :
  ∃ w1 w2,
    call_init cfg zero_MapDb empty_world = Some (zero_MapDb, w1) ∧
    call_init cfg zero_MapDb w1 = Some (zero_MapDb, w2) ∧
    containers (heap w1) = 17%nat ∧ brk (heap w1) = 18%nat ∧
    containers (heap w2) = 34%nat ∧ brk (heap w2) = 36%nat ∧
    List.length (pool w2) = 32%nat.
Proof.
  destruct (init_fresh cfg zero_MapDb empty_world empty_world_ok eq_refl eq_refl)
    as (db1 & w1 & Hinit1 & Hok1 & _ & _ & Hp1 & Hc1 & Hb1).
  destruct (init_fresh cfg zero_MapDb w1 Hok1 eq_refl eq_refl)
    as (db2 & w2 & Hinit2 & _ & _ & _ & Hp2 & Hc2 & Hb2).
  exists w1, w2. unfold call_init. rewrite Hinit1, Hinit2.
  assert (containers (heap empty_world) = 0%nat) as Hc0.
  { unfold containers; simpl. by rewrite map_filter_empty, map_size_empty. }
  rewrite Hc0 in Hc1. simpl in *. repeat split; lia.
Qed.

(** *** [Write] and [Read] *)

Lemma stored_entity h v :
  stored h v → is_entity v = true → holds_entity h = true.
Proof.
  intros [k [(l & mm & Hl & Hk)|(l & ix & p & _ & _ & Hp)]] Hv;
    apply existsb_exists.
  - exists (l, MapObj mm). split.
    + by apply list_elem_of_In, elem_of_map_to_list.
    + apply existsb_exists. exists (k, v). split; [|done].
      by apply list_elem_of_In, elem_of_map_to_list.
  - exists (p, Cell v). split; [|done].
    by apply list_elem_of_In, elem_of_map_to_list.
Qed.

(** C1 (as stated, refuted).  A request that carries an [AnnounceLog],
    written to a store whose maps are in place, is held nowhere in the
    store afterwards. *)
Lemma Write_stores_nothing :
  is_entity (Data sample_request) = true ∧
  is_Some (MapStor ready.1) ∧ is_Some (MapLookup ready.1) ∧
  ¬ stored (heap (Write ready.1 sample_request ready.2)) (Data sample_request).
Proof.
  split; [reflexivity|].
  split; [exists 0%nat; vm_compute; reflexivity|].
  split; [exists 17%nat; vm_compute; reflexivity|].
  intros Hst. apply stored_entity in Hst; [|reflexivity].
  vm_compute in Hst. discriminate Hst.
Qed.

(** C1 (amended).  For every request, whatever its payload, [Write] and
    [Read] leave the store as it was; neither can fail, and [Read]
    yields nothing. *)
Theorem Write_Read_noop (db : MapDb) (req : Request) (w : World) :
  Write db req w = w ∧ Read db req w = w.
Proof. unfold Write, Read. by destruct (Data req). Qed.

(** *** [Shutdown] *)

Lemma Shutdown_loop_busy fuel : ∀ i db env shared log,
  Busy db = true → Shutdown_loop fuel i db env shared log = None.
Proof.
  induction fuel as [|fuel IH]; intros i db env shared log Hb; simpl.
  - reflexivity.
  - rewrite Hb. by apply IH.
Qed.

(** C10.  The loop of [Shutdown] tests the copy of the struct taken at
    the call, and nothing done to the struct behind the pointer while
    the loop sleeps reaches that copy.  So the call returns, having
    sent its "stopping MapDb" message, exactly when [Busy] is false at
    the call: then it returns at the first test, and with [Busy] true
    it never returns, whatever the other goroutines do. *)
Theorem Shutdown_terminates_iff_not_Busy
    (env : nat → MapDb → MapDb) (shared : MapDb) (log : list string) :
  ((∃ fuel r, Shutdown fuel env shared log = Some r) ↔ Busy shared = false) ∧
  (Busy shared = false →
     ∀ fuel, Shutdown (S fuel) env shared log
             = Some (shared, log ++ ["stopping MapDb"])) ∧
  (Busy shared = true → ∀ fuel, Shutdown fuel env shared log = None).
Proof.
  assert (Busy shared = true → ∀ fuel, Shutdown fuel env shared log = None) as Hbusy.
  { intros Hb fuel. unfold Shutdown. by apply Shutdown_loop_busy. }
  assert (Busy shared = false →
          ∀ fuel, Shutdown (S fuel) env shared log
                  = Some (shared, log ++ ["stopping MapDb"])) as Hidle.
  { intros Hb fuel. unfold Shutdown. simpl. by rewrite Hb. }
  repeat split; auto.
  - intros (fuel & r & Hr). destruct (Busy shared) eqn:Hb; [|done].
    rewrite Hbusy in Hr by done. discriminate.
  - intros Hb. exists 1%nat, (shared, log ++ ["stopping MapDb"]). by apply Hidle.
Qed.

(** The theorem at these two structs. *)
Lemma Shutdown_witness :
  (∀ fuel, Shutdown fuel clear_Busy busy_MapDb [] = None) ∧
  (∀ fuel, Shutdown (S fuel) clear_Busy zero_MapDb []
           = Some (zero_MapDb, ["stopping MapDb"])).
Proof.
  split.
  - apply (proj2 (proj2 (Shutdown_terminates_iff_not_Busy clear_Busy busy_MapDb []))).
    reflexivity.
  - apply (proj1 (proj2 (Shutdown_terminates_iff_not_Busy clear_Busy zero_MapDb []))).
    reflexivity.
Defined.

(** ** The router *)

Lemma mapRequestChan_app out1 out2 :
  mapRequestChan (out1 ++ out2) = mapRequestChan out1 ++ mapRequestChan out2.
Proof. apply omap_app. Qed.

Lemma sqlRequestChan_app out1 out2 :
  sqlRequestChan (out1 ++ out2) = sqlRequestChan out1 ++ sqlRequestChan out2.
Proof. apply omap_app. Qed.

Lemma mapRequestChan_ToMap rs : mapRequestChan (ToMap <$> rs) = rs.
Proof. induction rs as [|r rs IH]; [done|]. cbn. by f_equal. Qed.

Lemma sqlRequestChan_ToMap rs : sqlRequestChan (ToMap <$> rs) = [].
Proof. induction rs as [|r rs IH]; [done|]. exact IH. Qed.

(** A send on the map channel completes while fewer than 100 requests
    are in its buffer; a send on the persistent channel never does. *)
Lemma DbManager_sends_ToMap hold out done :
  DbManager_sends (ToMap hold :: out) done =
    if bool_decide (List.length (mapRequestChan done) < 100)%nat
    then DbManager_sends out (done ++ [ToMap hold])
    else mkRouter done (Some (ToMap hold)).
Proof. reflexivity. Qed.

Lemma DbManager_sends_ToSql hold out done :
  DbManager_sends (ToSql hold :: out) done = mkRouter done (Some (ToSql hold)).
Proof. reflexivity. Qed.

(** The requests of a run, arrival by arrival. *)
Lemma general_arrivals_request hold rest :
  general_arrivals (OnRequestChan hold :: rest) = hold :: general_arrivals rest.
Proof. reflexivity. Qed.

Lemma general_arrivals_persistent hold rest :
  general_arrivals (OnPersistentChan hold :: rest) = general_arrivals rest.
Proof. reflexivity. Qed.


Lemma take_room {A} n (x : A) l :
  (n < 100)%nat → take (100 - n) (x :: l) = x :: take (100 - (n + 1)) l.
Proof. intros Hn. by replace (100 - n)%nat with (S (100 - (n + 1)))%nat by lia. Qed.

Lemma lookup_room {A} n (x : A) l :
  (n < 100)%nat → (x :: l) !! (100 - n)%nat = l !! (100 - (n + 1))%nat.
Proof. intros Hn. by replace (100 - n)%nat with (S (100 - (n + 1)))%nat by lia. Qed.

Lemma buffer_full n : (n ≤ 100)%nat → ¬ (n < 100)%nat → (100 - n)%nat = 0%nat.
Proof. lia. Qed.





(** ** The persistent store *)

(** Unfolds the steps of a computation on the store. *)
Ltac run_store :=
  unfold DbConnect, MustBegin, Execl, Exec, Commit, LogChan_send,
    log_Println, Queryx, count_files_users in *;
  unfold bind, ret, lift in *;
  cbn in *.

(** *** [Save] *)

Section Save.

Variable w : Store.
Hypothesis connected : connect_err (faults w) = None.
Hypothesis begun : begin_err (faults w) = None.

(** Once the transaction is open the answer is [true], whatever
    becomes of the statement and of the commit. *)
Lemma Save_failed s :
  write_failed w →
  true_without_write w
    ((tx <- MustBegin ;; tx <- Execl tx s ;; _ <- Commit tx ;; ret true) w).
Proof.
  unfold true_without_write. run_store. rewrite begun.
  intros [[e He]|[e He]]; destruct (exec_err (faults w)) eqn:E;
    cbn; rewrite ?He; simplify_eq; eauto.
  destruct (commit_err (faults w)); eauto.
Qed.

Lemma AnnounceLog_Save_failed a :
  write_failed w → true_without_write w (AnnounceLog_Save a w).
Proof.
  intros Hf. unfold AnnounceLog_Save, bind at 1, DbConnect.
  rewrite connected. by apply Save_failed.
Qed.

Lemma FileRecord_Save_failed f :
  write_failed w → true_without_write w (FileRecord_Save f w).
Proof.
  intros Hf. unfold FileRecord_Save, bind at 1, DbConnect.
  rewrite connected. by apply Save_failed.
Qed.

Lemma FileUserRecord_Save_failed f :
  write_failed w → true_without_write w (FileUserRecord_Save f w).
Proof.
  intros Hf. unfold FileUserRecord_Save, bind at 1, DbConnect.
  rewrite connected. by apply Save_failed.
Qed.

Lemma UserRecord_Save_failed u :
  write_failed w → true_without_write w (UserRecord_Save u w).
Proof.
  intros Hf. unfold UserRecord_Save, bind at 1, DbConnect.
  rewrite connected. by apply Save_failed.
Qed.

End Save.

(** A failed connection is logged and answered with [false]. *)
Lemma Save_not_connected w err a f fu u :
  connect_err (faults w) = Some err →
  AnnounceLog_Save a w = Ok (false, log_send err w) ∧
  FileRecord_Save f w = Ok (false, log_send err w) ∧
  FileUserRecord_Save fu w = Ok (false, log_send err w) ∧
  UserRecord_Save u w = Ok (false, log_send err w).
Proof.
  intros H.
  unfold AnnounceLog_Save, FileRecord_Save, FileUserRecord_Save, UserRecord_Save.
  run_store. by rewrite H.
Qed.

(** Without faults the statement is written. *)
Lemma AnnounceLog_Save_written w a :
  faults w = no_faults →
  ∃ w', AnnounceLog_Save a w = Ok (true, w') ∧
        tables w' = apply_stmt (now w) (InsertAnnounceLog a) (tables w).
Proof.
  intros H. unfold AnnounceLog_Save. run_store.
  repeat (rewrite H; cbn). eauto.
Qed.

(** C9 (the code against the claim).  When the statement is refused, or
    the commit is, each of the four [Save] methods still answers
    [true]: the tables are what they were and nothing has been sent on
    the log channel. *)
Theorem Save_true_on_failed_write :
  true_without_write exec_fails (AnnounceLog_Save sample_log exec_fails) ∧
  true_without_write commit_fails (AnnounceLog_Save sample_log commit_fails) ∧
  true_without_write exec_fails (FileRecord_Save sample_file exec_fails) ∧
  true_without_write commit_fails (FileRecord_Save sample_file commit_fails) ∧
  true_without_write exec_fails (FileUserRecord_Save sample_file_user exec_fails) ∧
  true_without_write commit_fails (FileUserRecord_Save sample_file_user commit_fails) ∧
  true_without_write exec_fails (UserRecord_Save sample_user exec_fails) ∧
  true_without_write commit_fails (UserRecord_Save sample_user commit_fails).
Proof.
  split_and!;
    first [ apply AnnounceLog_Save_failed | apply FileRecord_Save_failed
          | apply FileUserRecord_Save_failed | apply UserRecord_Save_failed ];
    try reflexivity;
    solve [ left; eexists; reflexivity | right; eexists; reflexivity ].
Qed.

(** *** [Seeders] and [Leechers] *)

(** The counts do not depend on the file they are asked for. *)
Lemma Seeders_Leechers_any_file f g w :
  Seeders f w = Seeders g w ∧ Leechers f w = Leechers g w.
Proof. split; reflexivity. Qed.

(** C6 (the code against the claim).  With one seeder and one leecher
    on each of two files, [Seeders] and [Leechers] asked for the first
    file answer 2 and 2: the relations of every file are counted.  The
    counts for that file alone are 1 and 1. *)
Theorem Seeders_Leechers_count_every_file :
  Seeders sample_file sample_store = Ok (2, sample_store) ∧
  seeders_of sample_tables sample_file = 1 ∧
  Leechers sample_file sample_store = Ok (2, sample_store) ∧
  leechers_of sample_tables sample_file = 1.
Proof. repeat split; vm_compute; reflexivity. Qed.

(** *** The compact peer list *)

(** **** Reading back a decimal numeral *)

Lemma is_dec_range c : net.is_dec c = true → 48 ≤ net.code c ≤ 57.
Proof. unfold net.is_dec. intros H. apply andb_prop in H as [H1 H2]. lia. Qed.

Lemma dec_value_ge s : ∀ n, all_dec s = true → 0 ≤ n → n ≤ dec_value s n.
Proof.
  induction s as [|c s IH]; intros n Hs Hn; simpl in *; [lia|].
  apply andb_prop in Hs as [Hc Hs]. apply is_dec_range in Hc.
  etrans; [|apply IH; [done|lia]]. lia.
Qed.

Lemma dtoi_from_numeral s : ∀ rest n any,
  all_dec s = true → ends_numeral rest → 0 ≤ n →
  dec_value s n < net.big → (s ≠ EmptyString ∨ any = true) →
  net.dtoi_from (s +:+ rest) n any = (dec_value s n, rest, true).
Proof.
  induction s as [|c s IH]; intros rest n any Hs Hrest Hn Hbig Hany; simpl in *.
  - destruct Hany as [Hany | ->]; [done|].
    destruct rest as [|c rest]; [done|]. simpl in *. by rewrite Hrest.
  - apply andb_prop in Hs as [Hc Hs]. rewrite Hc.
    pose proof (is_dec_range c Hc) as Hr.
    pose proof (dec_value_ge s (n * 10 + (net.code c - 48)) Hs ltac:(lia)) as Hge.
    destruct (Z.geb_spec (n * 10 + (net.code c - 48)) net.big) as [Hover|_]; [lia|].
    apply IH; auto. lia.
Qed.

Lemma Itoa_octet n : 0 ≤ n < 256 → octet_numeral n = true.
Proof.
  intros Hn.
  assert (forallb octet_numeral (seqZ 0 256) = true) as Hall
    by (vm_compute; reflexivity).
  rewrite forallb_forall in Hall. apply Hall.
  apply list_elem_of_In, elem_of_seqZ. lia.
Qed.

Lemma dtoi_Itoa_octet n rest :
  0 ≤ n < 256 → ends_numeral rest →
  net.dtoi (strconv.Itoa n +:+ rest) = (n, rest, true).
Proof.
  intros Hn Hrest. pose proof (Itoa_octet n Hn) as Ho.
  unfold octet_numeral in Ho.
  apply andb_prop in Ho as [Ho Hv]. apply andb_prop in Ho as [Hd Hne].
  apply Z.eqb_eq in Hv. unfold net.dtoi.
  rewrite dtoi_from_numeral; auto; try lia.
  - by rewrite Hv.
  - rewrite Hv. unfold net.big. lia.
  - left. intros E. rewrite E in Hne. discriminate.
Qed.

(** **** Octets and their bytes *)

Lemma land_255 v : 0 ≤ v < 256 → Z.land v 255 = v.
Proof.
  intros Hv. change 255 with (Z.ones 8). rewrite Z.land_ones by lia.
  apply Z.mod_small. lia.
Qed.

Lemma octet_high_bits a n : 0 ≤ a < 256 → 8 ≤ n → Z.testbit a n = false.
Proof.
  intros Ha Hn. destruct (decide (a = 0)) as [->|Hne]; [apply Z.bits_0|].
  apply Z.bits_above_log2; [lia|].
  assert (Z.log2 a < 8); [|lia]. apply Z.log2_lt_pow2; lia.
Qed.

Lemma byte_of_word a b c d k :
  0 ≤ a < 256 → 0 ≤ b < 256 → 0 ≤ c < 256 → 0 ≤ d < 256 →
  k = 0 ∨ k = 8 ∨ k = 16 ∨ k = 24 →
  Z.land (Z.shiftr
    (Z.lor (Z.lor (Z.lor d (Z.shiftl c 8)) (Z.shiftl b 16)) (Z.shiftl a 24)) k) 255
  = if decide (k = 24) then a
    else if decide (k = 16) then b
    else if decide (k = 8) then c else d.
Proof.
  intros Ha Hb Hc Hd Hcases.
  apply Z.bits_inj'. intros n Hn.
  change 255 with (Z.ones 8).
  rewrite Z.land_spec, Z.shiftr_spec, !Z.lor_spec, !Z.shiftl_spec by lia.
  destruct (Z.ltb_spec n 8) as [Hlt|Hge].
  - rewrite Z.ones_spec_low, andb_true_r by lia.
    destruct Hcases as [-> | [-> | [-> | ->]]]; repeat case_decide; try lia;
      repeat match goal with
      | |- context [Z.testbit ?x ?m] =>
          first [ rewrite (Z.testbit_neg_r x m) by lia
                | rewrite (octet_high_bits x m) by (auto; lia) ]
      end;
      rewrite ?orb_false_r, ?orb_false_l; f_equal; lia.
  - rewrite Z.ones_spec_high, andb_false_r by lia.
    symmetry. repeat case_decide; apply octet_high_bits; auto.
Qed.

Lemma PutUint32_Uint32 a b c d :
  0 ≤ a < 256 → 0 ≤ b < 256 → 0 ≤ c < 256 → 0 ≤ d < 256 →
  ∃ v, binary.Uint32 (Some [a; b; c; d]) = Ok v ∧ binary.PutUint32 v = [a; b; c; d].
Proof.
  intros Ha Hb Hc Hd. eexists. split; [reflexivity|]. unfold binary.PutUint32.
  rewrite (byte_of_word a b c d 24), (byte_of_word a b c d 16),
    (byte_of_word a b c d 8) by (auto; lia).
  pose proof (byte_of_word a b c d 0 Ha Hb Hc Hd ltac:(lia)) as H0.
  rewrite Z.shiftr_0_r in H0. rewrite H0. reflexivity.
Qed.

Lemma PutUint16_bytes p :
  0 ≤ p < 65536 → binary.PutUint16 p = [p / 256; p mod 256].
Proof.
  intros Hp. unfold binary.PutUint16.
  change 255 with (Z.ones 8). rewrite !Z.land_ones, Z.shiftr_div_pow2 by lia.
  change (2 ^ 8) with 256. f_equal. apply Z.mod_small.
  split; [apply Z.div_pos; lia|apply Z.div_lt_upper_bound; lia].
Qed.

(** **** Parsing a dotted quad *)

Lemma append_empty_r (s : string) : s +:+ "" = s.
Proof.
  induction s as [|c s IH]; [done|].
  change (String c (s +:+ "") = String c s). by f_equal.
Qed.

Lemma Itoa_octet_nonempty n rest : 0 ≤ n < 256 → strconv.Itoa n +:+ rest ≠ "".
Proof.
  intros Hn. pose proof (Itoa_octet n Hn) as Ho. unfold octet_numeral in Ho.
  destruct (strconv.Itoa n); [|done].
  rewrite andb_true_l in Ho. discriminate.
Qed.

Lemma parseIPv4_first n s p :
  s ≠ "" →
  net.parseIPv4_from (S n) 0 s p =
    let '(v, s2, ok) := net.dtoi s in
    if negb ok || (0xFF <? v) then None
    else net.parseIPv4_from n 1 s2 (p ++ [Z.land v 255]).
Proof. by destruct s. Qed.

Lemma parseIPv4_next n j s p :
  0 < j →
  net.parseIPv4_from (S n) j (String "." s) p =
    let '(v, s2, ok) := net.dtoi s in
    if negb ok || (0xFF <? v) then None
    else net.parseIPv4_from n (j + 1) s2 (p ++ [Z.land v 255]).
Proof.
  intros Hj. cbn [net.parseIPv4_from].
  destruct (Z.ltb_spec 0 j) as [_|Hle]; [|lia]. reflexivity.
Qed.

Lemma octet_accepted v : 0 ≤ v < 256 → negb true || (0xFF <? v) = false.
Proof. intros Hv. simpl. apply Z.ltb_ge. lia. Qed.

Lemma parseIPv4_dotted_quad p :
  valid_peer p →
  net.parseIPv4 (ipv4_string p)
  = Some (net.IPv4 (octet1 p) (octet2 p) (octet3 p) (octet4 p)).
Proof.
  intros (H1 & H2 & H3 & H4 & _). unfold net.parseIPv4, ipv4_string.
  rewrite parseIPv4_first by (by apply Itoa_octet_nonempty).
  rewrite dtoi_Itoa_octet by done. cbv beta iota.
  rewrite octet_accepted, land_255 by done.
  change ("." +:+ ?s) with (String "."%char s).
  rewrite parseIPv4_next by lia.
  rewrite dtoi_Itoa_octet by done. cbv beta iota.
  rewrite octet_accepted, land_255 by done.
  change ("." +:+ ?s) with (String "."%char s).
  rewrite parseIPv4_next by lia.
  rewrite dtoi_Itoa_octet by done. cbv beta iota.
  rewrite octet_accepted, land_255 by done.
  change ("." +:+ ?s) with (String "."%char s).
  rewrite parseIPv4_next by lia.
  rewrite <- (append_empty_r (strconv.Itoa (octet4 p))).
  rewrite dtoi_Itoa_octet by done. cbv beta iota.
  rewrite octet_accepted, land_255 by done.
  reflexivity.
Qed.

(** The address of a valid peer goes through [ParseIP], [To4],
    [Uint32] and [PutUint32] unchanged. *)
Lemma address_bytes p :
  valid_peer p →
  ∃ v, binary.Uint32 (net.To4 (net.ParseIP (ipv4_string p))) = Ok v ∧
       binary.PutUint32 v = [octet1 p; octet2 p; octet3 p; octet4 p].
Proof.
  intros Hp. unfold net.ParseIP. rewrite parseIPv4_dotted_quad by done.
  destruct Hp as (H1 & H2 & H3 & H4 & _).
  change (net.To4 (Some (net.IPv4 (octet1 p) (octet2 p) (octet3 p) (octet4 p))))
    with (Some [octet1 p; octet2 p; octet3 p; octet4 p]).
  by apply PutUint32_Uint32.
Qed.

(** One turn of the loop on the row of a valid peer. *)
Lemma PeerList_rows_step p rest peer buf w :
  valid_peer p →
  PeerList_rows (row_of p :: rest) peer buf w
  = PeerList_rows rest (mkPeer (ipv4_string p) (port_of p)) (buf ++ compact p)
      (log_send (peer_message p) w).
Proof.
  intros Hp. destruct (address_bytes p Hp) as (v & Hv & Hbytes).
  pose proof Hp as (_ & _ & _ & _ & Hport).
  assert ((0 <=? port_of p) && (port_of p <? 65536) = true) as Hfits.
  { apply andb_true_intro. split; [apply Z.leb_le|apply Z.ltb_lt]; lia. }
  cbn [PeerList_rows]. unfold StructScan, row_of. cbn [fst snd Ip Port].
  rewrite Hfits, Hv. unfold bind, lift, LogChan_send.
  rewrite Hbytes, PutUint16_bytes by done.
  reflexivity.
Qed.

Lemma PeerList_rows_valid peers : ∀ peer buf w,
  Forall valid_peer peers →
  ∃ w', PeerList_rows (map row_of peers) peer buf w
        = Ok (buf ++ concat (map compact peers), w') ∧
        tables w' = tables w ∧
        logChan w' = logChan w ++ map peer_message peers.
Proof.
  induction peers as [|p peers IH]; intros peer buf w Hall.
  - exists w. simpl. by rewrite !app_nil_r.
  - apply Forall_cons in Hall as [Hp Hall].
    cbn [map]. rewrite PeerList_rows_step by done.
    edestruct IH as (w' & -> & Htab & Hlog); [done|].
    exists w'. split_and!.
    + cbn [concat]. by rewrite <- app_assoc.
    + exact Htab.
    + rewrite Hlog. cbn [log_send logChan]. by rewrite <- app_assoc.
Qed.

(** C7.  For rows that hold valid IPv4 addresses and 16-bit ports the
    loop of [PeerList] appends to the buffer, row after row in the
    order of the rows, the four octets of the address followed by the
    two bytes of the port, high byte first: six bytes a row.  For the
    peers 192.0.2.1:6881 and 203.0.113.5:51413 the result is
    C0 00 02 01 1A E1 CB 00 71 05 C8 D5, from the loop and from
    [PeerList] over tables that hold these two peers. *)
Theorem PeerList_compact_encoding :
  (∀ peers peer buf w,
     Forall valid_peer peers →
     ∃ w', PeerList_rows (map row_of peers) peer buf w
           = Ok (buf ++ concat (map compact peers), w') ∧
           List.length (concat (map compact peers)) = (6 * List.length peers)%nat) ∧
  PeerList_rows [("192.0.2.1", 6881); ("203.0.113.5", 51413)] (mkPeer "" 0) []
    sample_store
  = Ok (example_bytes, mkStore sample_tables no_faults 100 example_log []) ∧
  PeerList sample_file "10.0.0.1" 50 sample_store
  = Ok (Some example_bytes, mkStore sample_tables no_faults 100 example_log []).
Proof.
  split_and!.
  - intros peers peer buf w Hall.
    destruct (PeerList_rows_valid peers peer buf w Hall) as (w' & Hrun & _ & _).
    exists w'. split; [done|].
    clear. induction peers as [|p peers IH]; [done|].
    cbn [map concat]. rewrite length_app, IH. simpl. lia.
  - vm_compute. reflexivity.
  - vm_compute. reflexivity.
Qed.

(** The theorem at the two example peers. *)
Lemma PeerList_compact_encoding_witness :
  ∃ w', PeerList_rows (map row_of example_peers) (mkPeer "" 0) [] sample_store
        = Ok ([] ++ concat (map compact example_peers), w') ∧
        List.length (concat (map compact example_peers))
        = (6 * List.length example_peers)%nat.
Proof.
  apply (proj1 PeerList_compact_encoding).
  repeat constructor; simpl; lia.
Defined.

(** **** A row that is not an IPv4 address *)

(** Whatever does not come out of [To4] as an address stops the loop
    with a panic, and the rows before and after it are lost with it. *)
Lemma PeerList_rows_panics row rest peer buf w :
  net.To4 (net.ParseIP row.1) = None →
  PeerList_rows (row :: rest) peer buf w = Panics "runtime error: index out of range".
Proof.
  intros H. cbn [PeerList_rows StructScan Ip]. rewrite H.
  reflexivity.
Qed.

(** C5 (the code against the claim).  A row whose address is not an
    IPv4 address is not checked: [ParseIP] and [To4] yield nil for it
    and reading four bytes of nil panics.  The call does not skip the
    row or fail it, it crashes, for text that is no address and for an
    IPv6 address alike, and the valid rows around it are lost. *)
Theorem PeerList_panics_on_invalid_ip :
  net.To4 (net.ParseIP "not-an-ip") = None ∧
  net.To4 (net.ParseIP "2001:db8::1") = None ∧
  PeerList_rows [("192.0.2.1", 6881); ("not-an-ip", 6881); ("203.0.113.5", 51413)]
    (mkPeer "" 0) [] sample_store
  = Panics "runtime error: index out of range" ∧
  PeerList sample_file "10.0.0.1" 50 (store_with_ip "not-an-ip")
  = Panics "runtime error: index out of range" ∧
  PeerList sample_file "10.0.0.1" 50 (store_with_ip "2001:db8::1")
  = Panics "runtime error: index out of range".
Proof. split_and!; vm_compute; reflexivity. Qed.

(** * Further properties *)

(** ** The trie under construction *)

Lemma child_key_inj a b :
  0 ≤ a < 16 → 0 ≤ b < 16 → child_key a = child_key b → a = b.
Proof.
  intros Ha Hb Hab.
  assert (forallb (fun p : Z * Z =>
            implb (String.eqb (child_key p.1) (child_key p.2)) (p.1 =? p.2))
            (list_prod (seqZ 0 16) (seqZ 0 16)) = true) as Hall
    by (vm_compute; reflexivity).
  rewrite forallb_forall in Hall.
  assert (In (a, b) (list_prod (seqZ 0 16) (seqZ 0 16))) as Hin.
  { apply in_prod; apply list_elem_of_In, elem_of_seqZ; lia. }
  apply Hall in Hin. simpl in Hin. rewrite Hab, String.eqb_refl in Hin.
  by apply Z.eqb_eq.
Qed.

(** What [addMap] does, iteration by iteration: the container gets the
    next keys, each bound to a fresh empty container; its other keys,
    and every other object, stay as they were. *)
Lemma addMap_from_detail n : ∀ i m size w mm,
  heap_ok (heap w) → objs (heap w) !! m = Some (MapObj mm) →
  0 ≤ i → i + Z.of_nat n ≤ 16 →
  ∃ w' mm', addMap_from n i m size w = Some w' ∧
    heap_ok (heap w') ∧
    brk (heap w') = (brk (heap w) + n)%nat ∧
    objs (heap w') !! m = Some (MapObj mm') ∧
    (∀ j, (j < n)%nat →
       mm' !! child_key (i + Z.of_nat j) = Some (MapRef (brk (heap w) + j)%nat)) ∧
    (∀ k, (∀ j, (j < n)%nat → k ≠ child_key (i + Z.of_nat j)) → mm' !! k = mm !! k) ∧
    (∀ j, (j < n)%nat → objs (heap w') !! (brk (heap w) + j)%nat = Some (MapObj ∅)) ∧
    (∀ l, l ≠ m → (l < brk (heap w))%nat → objs (heap w') !! l = objs (heap w) !! l) ∧
    pool w' = pool w ++ spawned (brk (heap w)) size n ∧
    LogChan w' = LogChan w.
Proof.
  induction n as [|n IH]; intros i m size w mm Hok Hm Hi Hn.
  - exists w, mm. unfold spawned. simpl. rewrite app_nil_r, Nat.add_0_r.
    split_and!; auto; intros; lia.
  - pose proof (Hok _ _ Hm) as Hlt.
    pose proof (heap_ok_fresh _ Hok) as Hfresh.
    cbn [addMap_from]. unfold make_map, map_store. cbn [objs brk].
    rewrite lookup_insert_ne by lia. rewrite Hm. cbn [mbind option_bind].
    unfold map_load. cbn [objs]. rewrite lookup_insert_eq.
    cbn [mbind option_bind]. rewrite lookup_insert_eq. cbn [default assert_map].
    set (b := brk (heap w)) in *.
    set (h2 := mkHeap (<[m:=MapObj (<[child_key i:=MapRef b]> mm)]>
                         (<[b:=MapObj ∅]> (objs (heap w)))) (S b)).
    set (w1 := mkWorld h2 (pool w ++ [(b, int_wrap (size - 1))]) (LogChan w)).
    assert (heap_ok (heap w1)) as Hok1.
    { intros l o. cbn. rewrite !lookup_insert. repeat case_decide; subst.
      - intros _. lia.
      - intros _. lia.
      - intros E. apply Hok in E. fold b in E. lia. }
    assert (objs (heap w1) !! m = Some (MapObj (<[child_key i:=MapRef b]> mm))) as Hm1.
    { cbn. by rewrite lookup_insert_eq. }
    destruct (IH (i + 1) m size w1 _ Hok1 Hm1 ltac:(lia) ltac:(lia))
      as (w' & mm' & Hrun & Hok' & Hbrk & Hm' & Hnew & Hold & Hfreshs & Hframe & Hpool & Hlog).
    cbn [heap brk w1 h2] in Hbrk, Hnew, Hfreshs, Hframe, Hpool.
    exists w', mm'. split_and!; auto.
    + rewrite Hbrk. lia.
    + intros [|j] Hj.
      * rewrite Hold.
        { rewrite Z.add_0_r, lookup_insert_eq, Nat.add_0_r. done. }
        intros j Hj' E. apply child_key_inj in E; lia.
      * replace (i + Z.of_nat (S j)) with (i + 1 + Z.of_nat j) by lia.
        rewrite Hnew by lia. do 2 f_equal. lia.
    + intros k Hk. rewrite Hold.
      * apply lookup_insert_ne. specialize (Hk 0%nat ltac:(lia)).
        rewrite Z.add_0_r in Hk. done.
      * intros j Hj. replace (i + 1 + Z.of_nat j) with (i + Z.of_nat (S j)) by lia.
        apply Hk. lia.
    + intros [|j] Hj.
      * rewrite Nat.add_0_r, Hframe by lia. cbn.
        rewrite lookup_insert_ne by lia. by rewrite lookup_insert_eq.
      * replace (b + S j)%nat with (S b + j)%nat by lia. apply Hfreshs. lia.
    + intros l Hl Hlb. rewrite Hframe by lia. cbn.
      rewrite !lookup_insert_ne by lia. done.
    + rewrite Hpool. cbn [pool w1]. rewrite <- app_assoc. f_equal.
      unfold spawned. cbn [seq fmap list_fmap]. rewrite Nat.add_0_r. f_equal.
      rewrite <- fmap_S_seq, <- list_fmap_compose. apply list_fmap_ext.
      intros ? j ?. cbn. f_equal. lia.
Qed.

Lemma elem_of_trie_keys k :
  k ∈ trie_keys ↔ ∃ j, (j < 16)%nat ∧ k = child_key (0 + Z.of_nat j).
Proof.
  unfold trie_keys. rewrite list_elem_of_fmap. split.
  - intros (i & -> & Hi). apply elem_of_seqZ in Hi.
    exists (Z.to_nat i). split; [lia|]. f_equal. lia.
  - intros (j & Hj & ->). eexists. split; [reflexivity|].
    apply elem_of_seqZ. lia.
Qed.

Lemma NoDup_key_list :
  NoDup ((fun j => child_key (Z.of_nat j)) <$> seq 0 16).
Proof. apply (bool_decide_unpack _). by vm_compute. Qed.

(** *** Statement by statement *)

(** A step of the goroutine that stands after [t1] in the pool. *)
Lemma step_at cfg t1 g t2 h h' next started :
  step_goroutine cfg g h = Some (h', next, started) →
  step cfg (List.length t1) (mkMachine h (t1 ++ g :: t2))
  = Some (mkMachine h' (t1 ++ option_list next ++ t2 ++ started)).
Proof.
  intros Hstep. unfold step. cbn [goroutines mheap].
  rewrite Nat.mod_small by (rewrite length_app; cbn; lia).
  rewrite list_lookup_middle by done. rewrite Hstep. cbn [mbind option_bind].
  rewrite take_app_length.
  assert (drop (S (List.length t1)) (t1 ++ g :: t2) = t2) as ->.
  { rewrite cons_middle, app_assoc.
    apply drop_app_length'. rewrite length_app. cbn. lia. }
  reflexivity.
Qed.

(** The goroutine a schedule picks splits the pool. *)
Lemma pick_goroutine k (ts : list goroutine) :
  ts ≠ [] →
  ∃ t1 g t2, ts = t1 ++ g :: t2 ∧ (k mod List.length ts)%nat = List.length t1.
Proof.
  intros Hne.
  assert (k mod List.length ts < List.length ts)%nat as Hj.
  { apply Nat.mod_upper_bound. destruct ts; cbn; [done|lia]. }
  destruct (lookup_lt_is_Some_2 _ _ Hj) as [g Hg].
  exists (take (k mod List.length ts) ts), g, (drop (S (k mod List.length ts)) ts).
  split; [by rewrite take_drop_middle|].
  rewrite length_take. lia.
Qed.

Lemma keys_below_succ i :
  0 ≤ i → keys_below (i + 1) = {[ child_key i ]} ∪ keys_below i.
Proof.
  intros Hi. unfold keys_below.
  replace (i + 1) with (Z.of_nat (S (Z.to_nat i))) by lia.
  rewrite seqZ_S, fmap_app, list_to_set_app_L. cbn [fmap list_fmap list_to_set].
  replace (Z.of_nat (Z.to_nat i)) with i by lia.
  replace (0 + i) with i by lia.
  rewrite union_empty_r_L. apply (comm_L (∪)).
Qed.

(** What a goroutine has in hand, and whether it is at work, depends on
    the heap at the containers in its hands only. *)
Lemma made_frame h h' g :
  (∀ l, l ∈ in_hand h g → objs h' !! l = objs h !! l) →
  made h' g = made h g.
Proof.
  intros Hsame. destruct g as [db|m size i at_pc caller|db]; try done.
  destruct at_pc; try done. cbn [made]. unfold children.
  rewrite (Hsame m) by (by left). done.
Qed.

Lemma in_hand_frame h h' g :
  (∀ l, l ∈ in_hand h g → objs h' !! l = objs h !! l) →
  in_hand h' g = in_hand h g.
Proof.
  intros Hsame. destruct g as [db|m size i at_pc caller|db]; try done.
  cbn [in_hand]. f_equal. by apply made_frame.
Qed.

Lemma at_work_frame h h' g :
  (∀ l, l ∈ in_hand h g → objs h' !! l = objs h !! l) →
  at_work h g → at_work h' g.
Proof.
  intros Hsame. pose proof (made_frame h h' g Hsame) as Hmade.
  destruct g as [db|m size i at_pc caller|db]; try done.
  cbn [at_work]. rewrite Hmade.
  intros (Hi & (mm & Hm & Hdom & Hload) & Hchild). split_and!; [lia|lia| |].
  - exists mm. rewrite Hsame by (by left). done.
  - intros l Hl. rewrite Hsame by (by right). by apply Hchild.
Qed.

Lemma all_in_hand_frame h h' (ts : list goroutine) :
  (∀ l, l ∈ ts ≫= in_hand h → objs h' !! l = objs h !! l) →
  ts ≫= in_hand h' = ts ≫= in_hand h ∧
  (Forall (at_work h) ts → Forall (at_work h') ts).
Proof.
  induction ts as [|g ts IH]; intros Hsame; [done|].
  rewrite !bind_cons in *.
  destruct IH as [IH1 IH2].
  { intros l Hl. apply Hsame, elem_of_app. by right. }
  assert (∀ l, l ∈ in_hand h g → objs h' !! l = objs h !! l) as Hg.
  { intros l Hl. apply Hsame, elem_of_app. by left. }
  split.
  - by rewrite IH1, (in_hand_frame h h' g Hg).
  - intros [Hw Hws]%Forall_cons. constructor; [by apply (at_work_frame h)|by apply IH2].
Qed.

(** A container in the hands of a goroutine at work is on the heap. *)
Lemma in_hand_container h g l :
  at_work h g → l ∈ in_hand h g → is_container h l.
Proof.
  destruct g as [db|m size i at_pc caller|db]; cbn [in_hand at_work];
    try (intros _ Hl; by apply elem_of_nil in Hl).
  intros (_ & (mm & Hm & _) & Hchild) [->|Hl]%elem_of_cons.
  - by exists mm.
  - exists ∅. by apply Hchild.
Qed.

Lemma all_in_hand_container h (ts : list goroutine) l :
  Forall (at_work h) ts → l ∈ ts ≫= in_hand h → is_container h l.
Proof.
  intros Hw (g & Hl & Hg)%list_elem_of_bind.
  rewrite Forall_forall in Hw. apply (in_hand_container h g); [by apply Hw|done].
Qed.

(** The invariant after a step of [g]: it is enough to look at what [g]
    becomes and what it starts, provided the step leaves alone what is
    on the heap and not in the hands of [g]. *)
Lemma inv_update h h' t1 g t2 next started :
  construction_inv (mkMachine h (t1 ++ g :: t2)) →
  heap_ok h' →
  (∀ l, (l < brk h)%nat → l ∉ in_hand h g → objs h' !! l = objs h !! l) →
  Forall (at_work h') (next ++ started) →
  NoDup ((next ++ started) ≫= in_hand h') →
  (∀ l, l ∈ (next ++ started) ≫= in_hand h' → l ∈ in_hand h g ∨ (brk h ≤ l)%nat) →
  (∀ l mm, objs h' !! l = Some (MapObj mm) →
     l ∈ in_hand h g ∨ (brk h ≤ l)%nat →
     l ∈ (next ++ started) ≫= in_hand h' ∨ dom mm = list_to_set trie_keys) →
  construction_inv (mkMachine h' (t1 ++ next ++ t2 ++ started)).
Proof.
  intros (Hok & Hwork & Hnd & Hfull) Hok' Hframe Hnew Hndnew Hfrom Hfullnew.
  unfold all_in_hand in *. cbn [mheap goroutines] in *.
  apply Forall_app in Hwork as [Hw1 [Hg Hw2]%Forall_cons].
  rewrite bind_app, bind_cons in Hnd, Hfull.
  apply NoDup_app in Hnd as (Hnd1 & Hdis1 & Hnd2).
  apply NoDup_app in Hnd2 as (Hndg & Hdisg & Hnd2).
  assert (∀ l, l ∈ (t1 ++ t2) ≫= in_hand h → objs h' !! l = objs h !! l) as Hsame.
  { intros l Hl. rewrite bind_app in Hl. apply Hframe.
    - assert (is_container h l) as [mm Hmm]; [|by apply Hok in Hmm].
      apply elem_of_app in Hl as [Hl|Hl];
        [by apply (all_in_hand_container h t1)|by apply (all_in_hand_container h t2)].
    - intros Hlg. apply elem_of_app in Hl as [Hl|Hl].
      + apply (Hdis1 l Hl), elem_of_app. by left.
      + by apply (Hdisg l Hlg). }
  destruct (all_in_hand_frame h h' t1) as [Ho1 Hk1].
  { intros l Hl. apply Hsame. rewrite bind_app. apply elem_of_app. by left. }
  destruct (all_in_hand_frame h h' t2) as [Ho2 Hk2].
  { intros l Hl. apply Hsame. rewrite bind_app. apply elem_of_app. by right. }
  apply Forall_app in Hnew as [Hnext Hstarted].
  rewrite bind_app in Hndnew, Hfrom, Hfullnew.
  assert (∀ l, l ∈ (next ≫= in_hand h') ++ (started ≫= in_hand h') →
               (l ∉ t1 ≫= in_hand h) ∧ (l ∉ t2 ≫= in_hand h)) as Hapart.
  { intros l Hl. destruct (Hfrom l Hl) as [Hlg|Hlb].
    - split; intros Hl'.
      + apply (Hdis1 l Hl'), elem_of_app. by left.
      + by apply (Hdisg l Hlg).
    - split; intros Hl'.
      + destruct (all_in_hand_container h t1 l Hw1 Hl') as [mm Hmm].
        apply Hok in Hmm. lia.
      + destruct (all_in_hand_container h t2 l Hw2 Hl') as [mm Hmm].
        apply Hok in Hmm. lia. }
  unfold construction_inv, all_in_hand. cbn [mheap goroutines]. split_and!.
  - done.
  - rewrite !Forall_app. auto.
  - rewrite !bind_app, Ho1, Ho2.
    assert ((t1 ≫= in_hand h) ++ (next ≫= in_hand h') ++ (t2 ≫= in_hand h)
              ++ (started ≫= in_hand h')
            ≡ₚ ((t1 ≫= in_hand h) ++ (t2 ≫= in_hand h))
              ++ ((next ≫= in_hand h') ++ (started ≫= in_hand h'))) as ->
      by solve_Permutation.
    apply NoDup_app. split_and!; [|by intros l Hl Hl'; destruct (Hapart l Hl'); 
                                      apply elem_of_app in Hl as [?|?]|done].
    apply NoDup_app. split_and!; [done| |done].
    intros l Hl Hl'. apply (Hdis1 l Hl), elem_of_app. by right.
  - intros l mm Hl. rewrite !bind_app, Ho1, Ho2.
    destruct (decide (l ∈ in_hand h g ∨ (brk h ≤ l)%nat)) as [Hchg|Hsamel].
    + destruct (Hfullnew l mm Hl Hchg) as [Hin|Hdom]; [left|by right].
      rewrite !elem_of_app in *. tauto.
    + rewrite Hframe in Hl by (first [lia | tauto]).
      destruct (Hfull l mm Hl) as [Hin|Hdom]; [left|by right].
      rewrite !elem_of_app in *. tauto.
Qed.

(** A step of a goroutine never panics in a trie under construction,
    and leaves a trie under construction. *)
Lemma step_goroutine_inv cfg t1 g t2 h :
  construction_inv (mkMachine h (t1 ++ g :: t2)) →
  ∃ h' next started, step_goroutine cfg g h = Some (h', next, started) ∧
    construction_inv (mkMachine h' (t1 ++ option_list next ++ t2 ++ started)).
Proof.
  intros Hinv. pose proof Hinv as (Hok & Hwork & Hnd & _).
  cbn [mheap goroutines] in Hok, Hwork. unfold all_in_hand in Hnd.
  cbn [mheap goroutines] in Hnd.
  apply Forall_app in Hwork as [_ [Hg _]%Forall_cons].
  rewrite bind_app, bind_cons in Hnd.
  apply NoDup_app in Hnd as (_ & _ & Hnd). apply NoDup_app in Hnd as (Hndg & _ & _).
  pose proof (heap_ok_fresh h Hok) as Hfresh.
  destruct (make_map_spec h Hok) as (Hok_map & _ & _ & _ & _).
  destruct (make_index_spec h Hok) as (Hok_ix & _ & _ & _).
  destruct g as [db|m size i [|l0| |l0] caller|db]; cbn [step_goroutine].
  - (* init, line 30 *)
    destruct (MapStor db) as [root|].
    + eexists _, _, _. split; [reflexivity|].
      apply (inv_update h h t1 (InInit db) t2 [InLookup db] [] Hinv).
      * done.
      * done.
      * by repeat constructor.
      * constructor.
      * intros l Hl. by apply elem_of_nil in Hl.
      * intros l mm Hl [Hin|Hge]; [by apply elem_of_nil in Hin|].
        apply Hok in Hl. lia.
    + eexists _, _, _. split; [reflexivity|].
      apply (inv_update h _ t1 (InInit db) t2 [InAddMap (brk h) _ 0 AtMake _] [] Hinv).
      * done.
      * intros l Hl _. cbn. by rewrite lookup_insert_ne by lia.
      * constructor; [|constructor]. cbn. split_and!; [lia|lia| |].
        -- exists ∅. by rewrite lookup_insert_eq.
        -- intros l Hl. by apply elem_of_nil in Hl.
      * cbn. apply NoDup_singleton.
      * cbn. intros l ->%list_elem_of_singleton. by right.
      * intros l mm Hl [Hin|Hge]; [by apply elem_of_nil in Hin|].
        left. cbn. apply Hok_map in Hl. cbn in Hl.
        apply list_elem_of_singleton. lia.
  - (* line 23, [make] *)
    destruct Hg as (Hi & (mm & Hm & Hdom & _) & _). cbn [stored_keys] in Hdom.
    pose proof (Hok _ _ Hm) as Hmb.
    eexists _, _, _. split; [reflexivity|].
    apply (inv_update h _ t1 _ t2 [InAddMap m size i (AtStore (brk h)) caller] [] Hinv).
    + done.
    + intros l Hl _. cbn. by rewrite lookup_insert_ne by lia.
    + constructor; [|constructor]. cbn. split_and!; [lia|lia| |].
      * exists mm. rewrite lookup_insert_ne by lia. done.
      * intros l ->%list_elem_of_singleton. by rewrite lookup_insert_eq.
    + cbn. apply NoDup_cons. split; [|apply NoDup_singleton].
      intros ->%list_elem_of_singleton. lia.
    + cbn. intros l [-> | ->%list_elem_of_singleton]%elem_of_cons; [left; by left|by right].
    + cbn. intros l mm' Hl [->%list_elem_of_singleton|Hge]; left.
      * by left.
      * apply Hok_map in Hl. cbn in Hl. right. apply list_elem_of_singleton. lia.
  - (* line 23, the assignment *)
    destruct Hg as (Hi & (mm & Hm & Hdom & _) & Hchild). cbn [stored_keys made] in *.
    specialize (Hchild l0 ltac:(by left)).
    cbn [in_hand made] in Hndg. apply NoDup_cons in Hndg as [Hne _].
    assert (m ≠ l0) as Hml by (intros ->; apply Hne; by left).
    destruct (map_store_spec m (child_key i) (MapRef l0) h mm Hok Hm)
      as (h2 & Hstore & Hok2 & Hbrk2 & _ & Hm2 & _).
    pose proof Hstore as Hstore'. unfold map_store in Hstore'. rewrite Hm in Hstore'.
    injection Hstore' as Hh2.
    rewrite Hstore. cbn [mbind option_bind].
    eexists _, _, _. split; [reflexivity|].
    assert (made h2 (InAddMap m size i AtLoad caller) = [l0]) as Hmade.
    { cbn [made]. unfold children. rewrite Hm2. by rewrite lookup_insert_eq. }
    assert (in_hand h2 (InAddMap m size i AtLoad caller) = [m; l0]) as Hhand.
    { cbn [in_hand]. by rewrite Hmade. }
    apply (inv_update h h2 t1 _ t2 [InAddMap m size i AtLoad caller] [] Hinv);
      rewrite ?app_nil_r, ?bind_singleton, ?Hhand.
    + done.
    + intros l _ Hl. rewrite <- Hh2. cbn. rewrite lookup_insert_ne; [done|].
      intros ->. apply Hl. by left.
    + constructor; [|constructor]. cbn [at_work stored_keys]. rewrite Hmade.
      split_and!; [lia|lia| |].
      * eexists. split; [exact Hm2|]. split.
        -- by rewrite dom_insert_L, Hdom, keys_below_succ by lia.
        -- intros _. exists l0. by rewrite lookup_insert_eq.
      * intros l ->%list_elem_of_singleton. rewrite <- Hh2. cbn.
        by rewrite lookup_insert_ne.
    + apply NoDup_cons. split; [|apply NoDup_singleton].
      by intros ->%list_elem_of_singleton.
    + intros l Hl. by left.
    + intros l mm' Hl [Hin|Hge]; [by left|].
      apply Hok2 in Hl. lia.
  - (* line 24, the read *)
    destruct Hg as (Hi & (mm & Hm & Hdom & Hload) & Hchild).
    destruct (Hload eq_refl) as [l0 Hl0].
    assert (made h (InAddMap m size i AtLoad caller) = [l0]) as Hmade.
    { cbn [made]. unfold children. by rewrite Hm, Hl0. }
    rewrite Hmade in Hchild.
    unfold map_load. rewrite Hm, Hl0. cbn [mbind option_bind default assert_map].
    eexists _, _, _. split; [reflexivity|].
    apply (inv_update h h t1 _ t2 [InAddMap m size i (AtSpawn l0) caller] [] Hinv);
      rewrite ?app_nil_r, ?bind_singleton; cbn [in_hand]; rewrite ?Hmade.
    + done.
    + done.
    + constructor; [|constructor]. cbn [at_work stored_keys made].
      split_and!; [lia|lia| |done]. by exists mm.
    + cbn [made]. cbn [in_hand] in Hndg. by rewrite Hmade in Hndg.
    + cbn [made]. intros l Hl. by left.
    + cbn [made]. intros l mm' Hl [Hin|Hge]; [by left|]. apply Hok in Hl. lia.
  - (* line 24, [go], and the end of the iteration *)
    destruct Hg as (Hi & (mm & Hm & Hdom & _) & Hchild). cbn [stored_keys made] in *.
    specialize (Hchild l0 ltac:(by left)).
    cbn [in_hand made] in Hndg. pose proof Hndg as [Hne _]%NoDup_cons.
    assert (m ≠ l0) as Hml by (intros ->; apply Hne; by left).
    eexists _, _, _. split; [reflexivity|].
    assert (at_work h (InAddMap l0 (int_wrap (size - 1)) 0 AtMake None)) as Hnew.
    { cbn. split_and!; [lia|lia| |].
      - exists ∅. by rewrite Hchild.
      - intros l Hl. by apply elem_of_nil in Hl. }
    destruct (i + 1 <? 16) eqn:Hlt.
    + apply Z.ltb_lt in Hlt.
      apply (inv_update h h t1 _ t2 [InAddMap m size (i + 1) AtMake caller]
               [InAddMap l0 (int_wrap (size - 1)) 0 AtMake None] Hinv).
      * done.
      * done.
      * constructor; [|by constructor]. cbn. split_and!; [lia|lia| |].
        -- by exists mm.
        -- intros l Hl. by apply elem_of_nil in Hl.
      * exact Hndg.
      * intros l Hl. by left.
      * intros l mm' Hl [Hin|Hge]; [by left|]. apply Hok in Hl. lia.
    + apply Z.ltb_ge in Hlt. assert (i = 15) as -> by lia.
      assert (option_list (InLookup <$> caller) ≫= in_hand h = []) as Hnone
        by (by destruct caller).
      apply (inv_update h h t1 _ t2 (option_list (InLookup <$> caller))
               [InAddMap l0 (int_wrap (size - 1)) 0 AtMake None] Hinv);
        rewrite ?bind_app, ?Hnone, ?bind_singleton; cbn [app in_hand made].
      * done.
      * done.
      * apply Forall_app. split; [|by constructor].
        destruct caller; cbn; by repeat constructor.
      * apply NoDup_singleton.
      * intros l ->%list_elem_of_singleton. left. right. by left.
      * intros l mm' Hl [[E | E%list_elem_of_singleton]%elem_of_cons | Hge];
          try subst l.
        -- right.
           assert (Some (MapObj mm') = Some (MapObj mm)) as [= ->]
             by (etrans; [symmetry; exact Hl|exact Hm]).
           by rewrite Hdom.
        -- left. by left.
        -- apply Hok in Hl. lia.
  - (* init, line 37 *)
    destruct (MapLookup db) as [ix|].
    + eexists _, _, _. split; [reflexivity|].
      apply (inv_update h h t1 (InLookup db) t2 [] [] Hinv).
      * done.
      * done.
      * constructor.
      * constructor.
      * intros l Hl. by apply elem_of_nil in Hl.
      * intros l mm Hl [Hin|Hge]; [by apply elem_of_nil in Hin|].
        apply Hok in Hl. lia.
    + eexists _, _, _. split; [reflexivity|].
      apply (inv_update h _ t1 (InLookup db) t2 [] [] Hinv).
      * done.
      * intros l Hl _. cbn. by rewrite lookup_insert_ne by lia.
      * constructor.
      * constructor.
      * intros l Hl. by apply elem_of_nil in Hl.
      * intros l mm Hl [Hin|Hge]; [by apply elem_of_nil in Hin|].
        pose proof (Hok_ix _ _ Hl) as Hlt. cbn in Hlt, Hl.
        assert (l = brk h) as -> by lia. rewrite lookup_insert_eq in Hl. discriminate.
Qed.

Lemma step_inv cfg k M :
  construction_inv M → ∃ M', step cfg k M = Some M' ∧ construction_inv M'.
Proof.
  destruct M as [h ts]. intros Hinv.
  destruct (decide (ts = [])) as [->|Hne].
  { exists (mkMachine h []). by split. }
  destruct (pick_goroutine k ts Hne) as (t1 & g & t2 & -> & Hk).
  destruct (step_goroutine_inv cfg t1 g t2 h Hinv)
    as (h' & next & started & Hstep & Hinv').
  eexists. split; [|exact Hinv'].
  rewrite <- (step_at cfg t1 g t2 h h' next started Hstep).
  unfold step. cbn [goroutines]. rewrite Hk.
  by rewrite (Nat.mod_small (List.length t1)) by (rewrite length_app; cbn; lia).
Qed.

Lemma steps_inv cfg ks : ∀ M,
  construction_inv M → ∃ M', steps cfg ks M = Some M' ∧ construction_inv M'.
Proof.
  induction ks as [|k ks IH]; intros M Hinv.
  - exists M. by split.
  - destruct (step_inv cfg k M Hinv) as (M1 & Hstep & Hinv1).
    destruct (IH M1 Hinv1) as (M' & Hsteps & Hinv').
    exists M'. cbn [steps]. rewrite Hstep. by split.
Qed.

(** Before any call of [init] has made a step there is nothing to keep. *)
Lemma construction_inv_init (dbs : list MapDb) :
  construction_inv (mkMachine empty_heap (InInit <$> dbs)).
Proof.
  assert ((InInit <$> dbs) ≫= in_hand empty_heap = []) as Hnone.
  { induction dbs as [|db dbs IH]; [done|]. exact IH. }
  unfold construction_inv, all_in_hand. cbn [mheap goroutines]. rewrite Hnone.
  split_and!.
  - intros l o. cbn. by rewrite lookup_empty.
  - apply Forall_fmap, Forall_forall. by intros db _.
  - constructor.
  - intros l mm. cbn. by rewrite lookup_empty.
Qed.

(** X2.  The construction keeps the trie a tree of disjoint work, however
    the goroutines are interleaved.  After any number of steps of any
    number of calls of [init] and of the goroutines they start, taken in
    any order, statement by statement: no step has panicked; no container
    is in the hands of two goroutines, so no two goroutines ever write
    the same map; the container whose loop a goroutine runs has exactly
    the keys of the iterations it has done; the child a goroutine has
    made and not yet handed on is empty; and a container in no hand has
    exactly the sixteen keys. *)
Theorem construction_keeps_trie_shape (cfg : Config) (dbs : list MapDb)
    (ks : list nat) :
  ∃ M, steps cfg ks (mkMachine empty_heap (InInit <$> dbs)) = Some M ∧
       construction_inv M.
Proof. apply steps_inv, construction_inv_init. Qed.

(** *** A call that is not interrupted *)

(** The goroutine of a call of [addMap] when the loop is at [i]. *)
Lemma steps_app cfg ks1 ks2 M M1 :
  steps cfg ks1 M = Some M1 → steps cfg (ks1 ++ ks2) M = steps cfg ks2 M1.
Proof.
  revert M. induction ks1 as [|k ks1 IH]; intros M; cbn [steps app].
  - by intros [= ->].
  - destruct (step cfg k M) as [M'|]; cbn [mbind option_bind]; [|done]. apply IH.
Qed.

Lemma step_at_next cfg t1 g t2 h h' g' started :
  step_goroutine cfg g h = Some (h', Some g', started) →
  step cfg (List.length t1) (mkMachine h (t1 ++ g :: t2))
  = Some (mkMachine h' (t1 ++ g' :: t2 ++ started)).
Proof. apply step_at. Qed.

(** The four steps of an iteration of [addMap], taken in a row, are the
    iteration of [addMap_from]. *)
Lemma iteration_steps cfg t1 t2 m size i caller n w w' :
  addMap_from (S n) i m size w = Some w' →
  ∃ w1, addMap_from n (i + 1) m size w1 = Some w' ∧
    LogChan w1 = LogChan w ∧
    (∃ t, pool w1 = pool w ++ [t]) ∧
    steps cfg (replicate 4 (List.length t1))
      (mkMachine (heap w)
         (t1 ++ InAddMap m size i AtMake caller :: t2 ++ (start <$> pool w)))
    = Some (mkMachine (heap w1)
              (t1 ++ (if i + 1 <? 16
                      then [InAddMap m size (i + 1) AtMake caller]
                      else option_list (InLookup <$> caller))
                  ++ t2 ++ (start <$> pool w1))).
Proof.
  cbn [addMap_from]. destruct (make_map (heap w)) as [l h1] eqn:Hmake.
  destruct (map_store m (child_key i) (MapRef l) h1) as [h2|] eqn:Hstore; [|done].
  cbn [mbind option_bind].
  destruct (map_load m (child_key i) h2) as [v|] eqn:Hload; [|done].
  cbn [mbind option_bind].
  destruct (assert_map v) as [child|] eqn:Hassert; [|done].
  cbn [mbind option_bind]. intros Hrest.
  eexists. split; [exact Hrest|]. cbn [LogChan pool heap].
  split; [done|]. split; [by eexists|].
  cbn [replicate steps].
  erewrite step_at_next; [|cbn [step_goroutine]; rewrite Hmake; reflexivity].
  cbn [mbind option_bind].
  erewrite step_at_next; [|cbn [step_goroutine]; rewrite Hstore; reflexivity].
  cbn [mbind option_bind].
  erewrite step_at_next;
    [|cbn [step_goroutine]; rewrite Hload; cbn; rewrite Hassert; reflexivity].
  cbn [mbind option_bind].
  erewrite step_at; [|cbn [step_goroutine]; reflexivity].
  cbn [mbind option_bind]. do 2 f_equal. f_equal.
  rewrite !app_nil_r, fmap_app, <- !app_assoc. cbn [fmap list_fmap app].
  by destruct (i + 1 <? 16), caller.
Qed.

(** The loop of [addMap] from iteration [i], not interrupted. *)
Lemma addMap_from_steps cfg t1 t2 m size caller n : ∀ i w w',
  0 ≤ i → i + Z.of_nat n = 16 →
  addMap_from n i m size w = Some w' →
  steps cfg (replicate (n * 4) (List.length t1))
    (mkMachine (heap w)
       (t1 ++ (if i <? 16
               then [InAddMap m size i AtMake caller]
               else option_list (InLookup <$> caller))
           ++ t2 ++ (start <$> pool w)))
  = Some (mkMachine (heap w')
            (t1 ++ option_list (InLookup <$> caller) ++ t2 ++ (start <$> pool w'))).
Proof.
  induction n as [|n IH]; intros i w w' Hi Hn Hrun.
  - assert (i = 16) as -> by lia. cbn in Hrun. injection Hrun as <-. done.
  - destruct (iteration_steps cfg t1 t2 m size i caller n w w' Hrun)
      as (w1 & Hrest & _ & _ & Hfour).
    replace (i <? 16) with true by (symmetry; apply Z.ltb_lt; lia).
    change (S n * 4)%nat with (4 + n * 4)%nat. rewrite replicate_add.
    cbn [app] in Hfour |- *.
    rewrite (steps_app _ _ _ _ _ Hfour).
    apply IH; [lia|lia|done].
Qed.

(** [addMap_from] only appends to the pool it is given. *)
Lemma addMap_from_pool n : ∀ i m size h p p0 log log0,
  addMap_from n i m size (mkWorld h (p ++ p0) log)
  = (fun w => mkWorld (heap w) (p ++ pool w) log)
      <$> addMap_from n i m size (mkWorld h p0 log0).
Proof.
  induction n as [|n IH]; intros i m size h p p0 log log0; [done|].
  cbn [addMap_from heap pool LogChan].
  destruct (make_map h) as [l h1].
  destruct (map_store m (child_key i) (MapRef l) h1) as [h2|]; [|done].
  cbn [mbind option_bind].
  destruct (map_load m (child_key i) h2) as [v|]; [|done].
  cbn [mbind option_bind].
  destruct (assert_map v) as [child|]; [|done].
  cbn [mbind option_bind]. rewrite <- app_assoc. apply IH.
Qed.

(** X1.  A call of [addMap] on a container that is not interrupted.
    Whatever depth it is given, whichever goroutines are pending and
    whether [init] made the call or [go] did, the 64 steps of its
    goroutine, taken in a row, never panic and have the effect of the
    function [addMap]: each of the sixteen keys of the container is
    bound to a fresh, empty container of its own; the other keys of the
    container and every other object are as they were; and one goroutine
    has been started on each new container, with the depth less one as
    an [int], which is the largest [int] when the depth is the
    smallest.  An empty container ends with exactly sixteen children. *)
Theorem addMap_sixteen_fresh_children (cfg : Config) (t1 t2 : list goroutine)
    (m : loc) (depth : Z) (caller : option MapDb) (h : Heap) :
  heap_ok h → is_container h m →
  ∃ w', addMap m depth (mkWorld h [] []) = Some w' ∧
    steps cfg (replicate 64 (List.length t1))
      (mkMachine h (t1 ++ InAddMap m depth 0 AtMake caller :: t2))
    = Some (mkMachine (heap w')
              (t1 ++ option_list (InLookup <$> caller) ++ t2 ++ (start <$> pool w'))) ∧
    (∀ j, (j < 16)%nat →
       children m (heap w') !! child_key (Z.of_nat j)
         = Some (MapRef (brk h + j)%nat) ∧
       objs (heap w') !! (brk h + j)%nat = Some (MapObj ∅)) ∧
    (∀ k, k ∉ trie_keys → children m (heap w') !! k = children m h !! k) ∧
    (∀ l o, l ≠ m → objs h !! l = Some o → objs (heap w') !! l = Some o) ∧
    pool w' = spawned (brk h) depth 16 ∧
    (children m h = ∅ → size (children m (heap w')) = 16%nat).
Proof.
  intros Hok [mm Hm].
  destruct (addMap_from_detail 16 0 m depth (mkWorld h [] []) mm Hok Hm
              ltac:(lia) ltac:(lia))
    as (w' & mm' & Hrun & _ & _ & Hm' & Hnew & Hold & Hfresh & Hframe & Hpool & _).
  cbn [heap pool app] in *.
  exists w'. unfold children. rewrite Hm, Hm'. split_and!; auto.
  - pose proof (addMap_from_steps cfg t1 t2 m depth caller 16 0 (mkWorld h [] []) w'
                  ltac:(lia) ltac:(lia) Hrun) as Hsteps.
    cbn [heap pool fmap list_fmap] in Hsteps. rewrite app_nil_r in Hsteps.
    exact Hsteps.
  - intros j Hj. split; [|by apply Hfresh]. by rewrite <- Hnew.
  - intros k Hk. apply Hold. intros j Hj ->. apply Hk, elem_of_trie_keys. eauto.
  - intros l o Hl Hlo. rewrite Hframe; auto. by apply Hok in Hlo.
  - intros ->.
    assert (mm' = list_to_map
              ((fun j => (child_key (Z.of_nat j), MapRef (brk h + j)%nat))
                 <$> seq 0 16)) as ->.
    { apply map_eq. intros k. destruct (decide (k ∈ trie_keys)) as [Hin|Hout].
      - apply elem_of_trie_keys in Hin as (j & Hj & ->). rewrite Hnew by done.
        symmetry. apply elem_of_list_to_map.
        + rewrite <- list_fmap_compose. apply NoDup_key_list.
        + apply list_elem_of_fmap. exists j. split; [done|].
          apply elem_of_seq. lia.
      - rewrite Hold, lookup_empty.
        + symmetry. apply not_elem_of_list_to_map. rewrite <- list_fmap_compose.
          intros Hin. apply Hout. apply list_elem_of_fmap in Hin as (j & -> & Hj).
          apply elem_of_seq in Hj. apply elem_of_trie_keys. exists j. split; [lia|done].
        + intros j Hj ->. apply Hout, elem_of_trie_keys. eauto. }
    rewrite map_size_list_to_map; [by rewrite length_fmap, length_seq|].
    rewrite <- list_fmap_compose. apply NoDup_key_list.
Qed.

(** *** The schedules in which no call is interrupted *)

(** A step of [run_goroutine] is 64 steps of the machine. *)
Lemma run_goroutine_steps cfg k w :
  world_ok w → pool w ≠ [] →
  ∃ w', run_goroutine k w = Running w' ∧ world_ok w' ∧ pool w' ≠ [] ∧
    steps cfg (replicate 64 (k mod List.length (pool w))%nat) (machine_of w)
    = Some (machine_of w').
Proof.
  intros Hw Hne.
  destruct (run_goroutine_spec k w Hw Hne) as (w' & Hstep & Hw' & Hlen & _).
  exists w'. split_and!; [done|done| |].
  { intros E. rewrite E in Hlen. cbn in Hlen. lia. }
  unfold run_goroutine in Hstep.
  set (j := (k mod List.length (pool w))%nat) in *.
  destruct (pool w !! j) as [[m size]|] eqn:Hj; [|discriminate].
  destruct (addMap m size (mkWorld (heap w) (delete j (pool w)) (LogChan w)))
    as [w2|] eqn:Hrun; [|discriminate].
  injection Hstep as ->.
  unfold addMap in Hrun.
  rewrite <- (app_nil_r (delete j (pool w))) in Hrun.
  rewrite (addMap_from_pool 16 0 m size (heap w) (delete j (pool w)) [] _ []) in Hrun.
  destruct (addMap_from 16 0 m size (mkWorld (heap w) [] [])) as [w0|] eqn:Hrun0;
    [|discriminate].
  cbn in Hrun. injection Hrun as <-.
  pose proof (addMap_from_steps cfg (start <$> take j (pool w))
                (start <$> drop (S j) (pool w)) m size None 16 0
                (mkWorld (heap w) [] []) w0 ltac:(lia) ltac:(lia) Hrun0) as Hsteps.
  change (0 <? 16) with true in Hsteps.
  cbn [heap pool fmap list_fmap option_fmap option_map option_list app] in Hsteps.
  rewrite app_nil_r in Hsteps.
  assert (List.length (start <$> take j (pool w)) = j) as Hlenj.
  { rewrite length_fmap, length_take. apply lookup_lt_Some in Hj. lia. }
  rewrite Hlenj in Hsteps.
  unfold machine_of. cbn [heap pool].
  rewrite <- (take_drop_middle (pool w) j (m, size) Hj) at 1.
  rewrite fmap_app, fmap_cons.
  change (start (m, size)) with (InAddMap m size 0 AtMake None).
  change (16 * 4)%nat with 64%nat in Hsteps. rewrite Hsteps.
  do 2 f_equal. rewrite delete_take_drop, !fmap_app. by rewrite <- app_assoc.
Qed.

Lemma run_steps cfg ks : ∀ w,
  world_ok w → pool w ≠ [] →
  ∃ w' ks', run ks w = Running w' ∧
    steps cfg ks' (machine_of w) = Some (machine_of w').
Proof.
  induction ks as [|k ks IH]; intros w Hw Hne.
  - exists w, []. by split.
  - destruct (run_goroutine_steps cfg k w Hw Hne) as (w1 & Hstep & Hw1 & Hne1 & Hsteps1).
    destruct (IH w1 Hw1 Hne1) as (w' & ks' & Hrun & Hsteps).
    exists w', (replicate 64 (k mod List.length (pool w))%nat ++ ks').
    cbn [run]. rewrite Hstep. split; [done|].
    by rewrite (steps_app _ _ _ _ _ Hsteps1).
Qed.

(** [init] on a struct without its maps is 66 steps of the machine. *)
Lemma init_steps cfg db w :
  world_ok w → MapStor db = None → MapLookup db = None →
  ∃ db' w', init cfg db w = Some (db', w') ∧ world_ok w' ∧ pool w' ≠ [] ∧
    steps cfg (replicate 66 (List.length (pool w)))
      (mkMachine (heap w) ((start <$> pool w) ++ [InInit db]))
    = Some (machine_of w').
Proof.
  intros Hw Hs Hl.
  destruct (init_fresh cfg db w Hw Hs Hl) as (db' & w' & Hinit & Hw' & _ & _ & Hlen & _).
  exists db', w'. split_and!; [done|done| |].
  { intros E. rewrite E in Hlen. cbn in Hlen. lia. }
  unfold init in Hinit. rewrite Hs in Hinit.
  destruct (make_map (heap w)) as [root h1] eqn:Hmake.
  unfold addMap in Hinit.
  rewrite <- (app_nil_r (pool w)) in Hinit.
  rewrite (addMap_from_pool 16 0 root _ h1 (pool w) [] _ []) in Hinit.
  destruct (addMap_from 16 0 root (ceil_log16 (Size cfg)) (mkWorld h1 [] []))
    as [w0|] eqn:Hrun0; [|discriminate].
  cbn [fmap option_fmap option_map mbind option_bind MapLookup] in Hinit.
  rewrite Hl in Hinit. cbn [heap pool LogChan] in Hinit.
  destruct (make_index (heap w0)) as [ix h3] eqn:Hindex.
  injection Hinit as <- <-.
  set (db1 := mkMapDb (Id db) (Busy db) (Some root) (MapLookup db)).
  assert (List.length (start <$> pool w) = List.length (pool w)) as Hlenp
    by apply length_fmap.
  change 66%nat with (1 + (16 * 4 + 1))%nat. rewrite !replicate_add.
  rewrite <- Hlenp.
  erewrite (steps_app cfg (replicate 1 _)).
  2:{ cbn [replicate steps]. erewrite step_at_next; [reflexivity|].
      cbn [step_goroutine]. rewrite Hs, Hmake. reflexivity. }
  pose proof (addMap_from_steps cfg (start <$> pool w) [] root
                (ceil_log16 (Size cfg)) (Some db1) 16 0
                (mkWorld h1 [] []) w0 ltac:(lia) ltac:(lia) Hrun0) as Hsteps.
  change (0 <? 16) with true in Hsteps.
  cbn [heap pool fmap list_fmap option_fmap option_map option_list app] in Hsteps.
  erewrite steps_app; [|exact Hsteps].
  change (option_list (Some (InLookup db1)) ++ (start <$> pool w0))
    with (InLookup db1 :: (start <$> pool w0)).
  cbn [replicate steps]. erewrite step_at.
  2:{ cbn [step_goroutine MapLookup db1]. rewrite Hl, Hindex. reflexivity. }
  cbn [mbind option_bind option_list app]. unfold machine_of. cbn [heap pool].
  by rewrite app_nil_r, fmap_app.
Qed.

(** X8.  The schedules in which no call of [addMap] is interrupted are
    schedules of the machine: for every run of [init] followed by any
    number of pending calls, each run to its end in any order, there is
    a schedule of the machine, from a single goroutine about to call
    [init], that ends with the same heap and the same pending calls.
    Whatever holds after every schedule of the machine holds after
    these runs. *)
Theorem uninterrupted_runs_are_schedules (cfg : Config) (ks : list nat) :
  ∃ db w w' ks',
    init cfg zero_MapDb empty_world = Some (db, w) ∧
    run ks w = Running w' ∧
    steps cfg ks' (mkMachine empty_heap [InInit zero_MapDb]) = Some (machine_of w') ∧
    construction_inv (machine_of w').
Proof.
  destruct (init_steps cfg zero_MapDb empty_world empty_world_ok eq_refl eq_refl)
    as (db & w & Hinit & Hw & Hne & Hsteps0).
  destruct (run_steps cfg ks w Hw Hne) as (w' & ks' & Hrun & Hsteps).
  exists db, w, w', (replicate 66 0%nat ++ ks').
  split; [exact Hinit|]. split; [exact Hrun|].
  cbn [empty_world heap pool fmap list_fmap app List.length] in Hsteps0.
  assert (steps cfg (replicate 66 0%nat ++ ks')
            (mkMachine empty_heap [InInit zero_MapDb]) = Some (machine_of w')) as Hall.
  { by rewrite (steps_app _ _ _ _ _ Hsteps0). }
  split; [exact Hall|].
  destruct (steps_inv cfg (replicate 66 0%nat ++ ks')
              (mkMachine empty_heap (InInit <$> [zero_MapDb]))
              (construction_inv_init [zero_MapDb])) as (M & HM & Hinv).
  cbn [fmap list_fmap] in HM. rewrite Hall in HM. by injection HM as <-.
Qed.




Lemma one_container_ok : world_ok one_container ∧ is_container (heap one_container) 0%nat.
Proof.
  destruct (make_map_spec empty_heap) as (Hok & _ & _ & Hc & _).
  { intros l o. cbn. by rewrite lookup_empty. }
  split; [|exact Hc]. split; [exact Hok|constructor].
Qed.

(** The theorem on a world with one empty container, for a call with
    the smallest depth there is: the sixteen goroutines it starts get
    the largest. *)
Lemma addMap_sixteen_fresh_children_witness :
  ∃ w', addMap 0%nat min_int one_container = Some w' ∧
        steps config16 (replicate 64 0%nat)
          (mkMachine (heap one_container) [InAddMap 0%nat min_int 0 AtMake None])
        = Some (mkMachine (heap w') (start <$> pool w')) ∧
        (pool w').*2 = replicate 16 (2 ^ 63 - 1) ∧
        size (children 0%nat (heap w')) = 16%nat.
Proof.
  destruct (addMap_sixteen_fresh_children config16 [] [] 0%nat min_int None
              (heap one_container)
              (proj1 (proj1 one_container_ok)) (proj2 one_container_ok))
    as (w' & Hrun & Hsteps & _ & _ & _ & Hpool & Hsize).
  exists w'. split; [exact Hrun|]. split; [exact Hsteps|].
  split; [by rewrite Hpool|]. apply Hsize. reflexivity.
Defined.

(** ** The modes of the router *)

(** The sends of one turn with the map store alone, and with the SQL
    store alone. *)
Lemma DbManager_turn_map_only cfg a :
  Map cfg = true → Sql cfg = false →
  DbManager_turn cfg a =
    match a with
    | OnRequestChan hold => Some [ToMap hold]
    | OnPersistentChan _ => None
    end.
Proof. intros Hm Hs. unfold DbManager_turn. by rewrite Hm, Hs. Qed.

Lemma DbManager_turn_sql_only cfg a :
  Map cfg = false → Sql cfg = true →
  DbManager_turn cfg a =
    match a with
    | OnRequestChan hold => Some [ToSql hold]
    | OnPersistentChan _ => None
    end.
Proof. intros Hm Hs. unfold DbManager_turn. by rewrite Hm, Hs. Qed.

Lemma DbManager_from_map_only cfg arrivals :
  Map cfg = true → Sql cfg = false →
  ∀ done, (List.length (mapRequestChan done) ≤ 100)%nat →
  DbManager_from cfg arrivals done =
    mkRouter
      (done ++ (ToMap <$> take (100 - List.length (mapRequestChan done))
                            (general_arrivals arrivals)))
      (ToMap <$> general_arrivals arrivals
                   !! (100 - List.length (mapRequestChan done))%nat).
Proof.
  intros Hm Hs.
  induction arrivals as [|[hold|hold] rest IH]; intros done Hlen;
    cbn [DbManager_from]; rewrite ?(DbManager_turn_map_only cfg _ Hm Hs).
  - cbn. by rewrite take_nil, app_nil_r.
  - rewrite DbManager_sends_ToMap, general_arrivals_request.
    case_bool_decide as Hroom.
    + cbn [DbManager_sends parked sent]. rewrite IH.
      2:{ rewrite mapRequestChan_app, length_app. cbn. lia. }
      rewrite mapRequestChan_app, length_app.
      change (List.length (mapRequestChan [ToMap hold])) with 1%nat.
      rewrite take_room, lookup_room by done. cbn [fmap list_fmap].
      by rewrite <- app_assoc.
    + cbn [parked]. rewrite buffer_full by done. cbn. by rewrite app_nil_r.
  - rewrite general_arrivals_persistent. by apply IH.
Qed.

Lemma DbManager_from_sql_only cfg arrivals :
  Map cfg = false → Sql cfg = true →
  ∀ done,
  DbManager_from cfg arrivals done =
    mkRouter done (ToSql <$> head (general_arrivals arrivals)).
Proof.
  intros Hm Hs.
  induction arrivals as [|[hold|hold] rest IH]; intros done;
    cbn [DbManager_from]; rewrite ?(DbManager_turn_sql_only cfg _ Hm Hs).
  - done.
  - by rewrite DbManager_sends_ToSql.
  - by apply IH.
Qed.

(** X4.  With the map store alone, the router puts the general
    requests on the map channel in order, reads and writes alike, until
    the buffer of 100 is full: nothing receives from the channel, so the
    send of the 101st general request never completes and the router
    takes no request after it.  Nothing is sent on the persistent
    channel, and persistent-intent requests are not taken. *)
Theorem DbManager_map_only (cfg : Config) (arrivals : list arrival) :
  Map cfg = true → Sql cfg = false →
  DbManager_loop cfg arrivals = ToMap <$> take 100 (general_arrivals arrivals) ∧
  DbManager_parked cfg arrivals = ToMap <$> general_arrivals arrivals !! 100%nat ∧
  mapRequestChan (DbManager_loop cfg arrivals) = take 100 (general_arrivals arrivals) ∧
  sqlRequestChan (DbManager_loop cfg arrivals) = [] ∧
  ∀ hold, DbManager_turn cfg (OnPersistentChan hold) = None.
Proof.
  intros Hm Hs. unfold DbManager_loop, DbManager_parked.
  rewrite (DbManager_from_map_only cfg arrivals Hm Hs []) by (cbn; lia).
  cbn [sent parked mapRequestChan omap List.length app].
  change (100 - 0)%nat with 100%nat.
  fold (mapRequestChan (ToMap <$> take 100 (general_arrivals arrivals))).
  rewrite mapRequestChan_ToMap, sqlRequestChan_ToMap. split_and!; try done.
  intros hold. by rewrite DbManager_turn_map_only.
Qed.

(** The theorem on 150 writes: 100 are put on the map channel, the
    router is parked at the send of the next one. *)
Lemma DbManager_map_only_witness :
  mapRequestChan (DbManager_loop config_map_only many_writes)
    = replicate 100 sample_request ∧
  DbManager_parked config_map_only many_writes = Some (ToMap sample_request).
Proof.
  destruct (DbManager_map_only config_map_only many_writes eq_refl eq_refl)
    as (_ & Hparked & Hmap & _).
  split; [exact Hmap|exact Hparked].
Defined.

(** X5.  With the SQL store alone, the router takes the first general
    request and never gets past its send: the persistent channel has no
    buffer and no receiver.  No send ever completes, on either channel,
    and no later request is taken; persistent-intent requests are not
    taken at all. *)
Theorem DbManager_sql_only (cfg : Config) (arrivals : list arrival) :
  Map cfg = false → Sql cfg = true →
  DbManager_loop cfg arrivals = [] ∧
  DbManager_parked cfg arrivals = ToSql <$> head (general_arrivals arrivals) ∧
  ∀ hold, DbManager_turn cfg (OnPersistentChan hold) = None.
Proof.
  intros Hm Hs. unfold DbManager_loop, DbManager_parked.
  rewrite (DbManager_from_sql_only cfg arrivals Hm Hs []). split_and!; try done.
  intros hold. by rewrite DbManager_turn_sql_only.
Qed.

(** The theorem on three arrivals. *)
Lemma DbManager_sql_only_witness :
  DbManager_loop config_sql_only sample_arrivals = [] ∧
  DbManager_parked config_sql_only sample_arrivals = Some (ToSql sample_request) ∧
  ∀ hold, DbManager_turn config_sql_only (OnPersistentChan hold) = None.
Proof.
  apply (DbManager_sql_only config_sql_only sample_arrivals); reflexivity.
Defined.

(** The sends of a turn that complete are the first of the turn, and
    all of them when the router is not parked. *)
Lemma DbManager_sends_prefix out : ∀ done,
  ∃ extra, sent (DbManager_sends out done) = done ++ extra ∧
    extra `prefix_of` out ∧
    (parked (DbManager_sends out done) = None → extra = out).
Proof.
  induction out as [|s out IH]; intros done.
  { exists []. cbn. by rewrite app_nil_r. }
  cbn [DbManager_sends]. case_bool_decide as Hroom.
  - destruct (IH (done ++ [s])) as (extra & Hsent & Hpre & Hall).
    exists (s :: extra). rewrite Hsent, <- app_assoc. split_and!; [done| |].
    + by apply prefix_cons.
    + intros Hp. by rewrite Hall.
  - exists []. cbn. rewrite app_nil_r. split_and!; [done|apply prefix_nil|done].
Qed.

(** The sends that complete over a run are the first of the sends the
    turns run. *)
Lemma DbManager_from_prefix cfg arrivals : ∀ done,
  ∃ extra, sent (DbManager_from cfg arrivals done) = done ++ extra ∧
    extra `prefix_of` routes cfg arrivals.
Proof.
  induction arrivals as [|a rest IH]; intros done.
  { exists []. cbn. by rewrite app_nil_r. }
  cbn [DbManager_from]. unfold routes. cbn [mbind list_bind].
  fold (routes cfg rest).
  destruct (DbManager_turn cfg a) as [out|]; cbn [default].
  - destruct (DbManager_sends_prefix out done) as (e & Hsent & Hpre & Hall).
    destruct (parked (DbManager_sends out done)) as [s|].
    + exists e. split; [done|]. by apply prefix_app_r.
    + rewrite (Hall eq_refl) in Hsent. rewrite Hsent.
      destruct (IH (done ++ out)) as (extra & Hsent' & Hpre').
      exists (out ++ extra). rewrite Hsent', <- app_assoc. split; [done|].
      by apply prefix_app.
  - apply IH.
Qed.

(** The request of an arrival. *)
Lemma DbManager_turn_sends cfg a :
  ∃ out, default [] (DbManager_turn cfg a) = out ∧
    mapRequestChan out `sublist_of` general_arrivals [a] ∧
    sqlRequestChan out `sublist_of` [request_of a] ∧
    (List.length out ≤ 2)%nat.
Proof.
  eexists. split; [reflexivity|]. unfold DbManager_turn.
  destruct a as [hold|hold], (Map cfg), (Sql cfg); cbn;
    try destruct (is_nil (Data hold)); cbn;
    split_and!; try lia; repeat constructor.
Qed.

Lemma routes_cons cfg a rest :
  routes cfg (a :: rest) = default [] (DbManager_turn cfg a) ++ routes cfg rest.
Proof. reflexivity. Qed.

Lemma routes_sends cfg arrivals :
  mapRequestChan (routes cfg arrivals) `sublist_of` general_arrivals arrivals ∧
  sqlRequestChan (routes cfg arrivals) `sublist_of` (request_of <$> arrivals) ∧
  (List.length (routes cfg arrivals) ≤ 2 * List.length arrivals)%nat.
Proof.
  split_and!.
  - induction arrivals as [|a rest IH]; [done|].
    destruct (DbManager_turn_sends cfg a) as (out & Hout & Hmap & _ & _).
    rewrite routes_cons, Hout, mapRequestChan_app.
    change (general_arrivals (a :: rest))
      with (omap (fun a => match a with
                           | OnRequestChan r => Some r
                           | OnPersistentChan _ => None
                           end) ([a] ++ rest)).
    rewrite omap_app. by apply sublist_app.
  - induction arrivals as [|a rest IH]; [done|].
    destruct (DbManager_turn_sends cfg a) as (out & Hout & _ & Hsql & _).
    rewrite routes_cons, Hout, sqlRequestChan_app.
    change (request_of <$> a :: rest) with ([request_of a] ++ (request_of <$> rest)).
    by apply sublist_app.
  - induction arrivals as [|a rest IH]; [simpl; lia|].
    destruct (DbManager_turn_sends cfg a) as (out & Hout & _ & _ & Hlen).
    rewrite routes_cons, Hout, length_app. cbn [List.length]. lia.
Qed.

(** X6.  The router never sends a request it has not taken, in any
    mode: what the map channel is sent is a subsequence of the general
    requests, what the persistent channel is sent is a subsequence of
    all the requests, and a turn sends at most two requests.  With
    neither backend on it sends nothing at all; its notice "No database
    in use." is sent in that mode and in no other. *)
Theorem DbManager_sends_only_arrivals (cfg : Config) (arrivals : list arrival) :
  mapRequestChan (DbManager_loop cfg arrivals) `sublist_of` general_arrivals arrivals ∧
  sqlRequestChan (DbManager_loop cfg arrivals) `sublist_of` (request_of <$> arrivals) ∧
  (List.length (DbManager_loop cfg arrivals) ≤ 2 * List.length arrivals)%nat ∧
  (Map cfg = false ∧ Sql cfg = false ↔ DbManager_notice cfg = ["No database in use."]) ∧
  (DbManager_notice cfg = ["No database in use."] → DbManager_loop cfg arrivals = []).
Proof.
  destruct (DbManager_from_prefix cfg arrivals []) as (extra & Hsent & [rest Hpre]).
  cbn [app] in Hsent. fold (DbManager_loop cfg arrivals) in Hsent.
  destruct (routes_sends cfg arrivals) as (Hmap & Hsql & Hlen).
  rewrite Hpre in Hmap, Hsql, Hlen.
  rewrite mapRequestChan_app in Hmap. rewrite sqlRequestChan_app in Hsql.
  rewrite length_app in Hlen. rewrite Hsent.
  split_and!.
  - etrans; [|exact Hmap]. by apply sublist_inserts_r.
  - etrans; [|exact Hsql]. by apply sublist_inserts_r.
  - lia.
  - unfold DbManager_notice. destruct (Map cfg), (Sql cfg); cbn; split;
      first [intros [? ?] | intros ?]; done.
  - unfold DbManager_notice. intros Hn.
    destruct (Map cfg) eqn:Hm, (Sql cfg) eqn:Hs; cbn in Hn; try discriminate.
    assert (routes cfg arrivals = []) as Hnone.
    { clear -Hm Hs. induction arrivals as [|a arrivals IH]; [done|].
      rewrite routes_cons, IH. unfold DbManager_turn. by rewrite Hm, Hs. }
    rewrite Hnone in Hpre. symmetry in Hpre. by apply app_eq_nil in Hpre as [-> _].
Qed.

(** The theorem with neither store on. *)
Lemma DbManager_sends_only_arrivals_witness :
  DbManager_loop config_neither sample_arrivals = [].
Proof.
  apply (DbManager_sends_only_arrivals config_neither sample_arrivals).
  reflexivity.
Defined.

(** ** The shutdown goroutine *)

(** X7.  The shutdown goroutine of [DbManager] signals on [dbDoneChan]
    exactly when the map store is off or was not busy at the moment its
    [Shutdown] was called, and the SQL store is off or its [Shutdown]
    returns.  With the map store on and busy at that moment the signal
    is never sent, whatever the other goroutines do to the struct
    afterwards.  When the goroutine finishes it has sent, in this
    order: the value received and [true] on the shutdown channel, the
    message of the map store if it is on, what the SQL store sends if
    it is on, and last the signal on [dbDoneChan]. *)
Theorem DbManager_shutdown_done (cfg : Config) (env : nat → MapDb → MapDb)
    (mapDb : MapDb) (sqlDb_Shutdown : option (list signal)) (v : bool) :
  ((∃ fuel sent, DbManager_shutdown fuel cfg env mapDb sqlDb_Shutdown v = Some sent)
   ↔ (Map cfg = true → Busy mapDb = false)
     ∧ (Sql cfg = true → is_Some sqlDb_Shutdown)) ∧
  (∀ fuel sent,
     DbManager_shutdown fuel cfg env mapDb sqlDb_Shutdown v = Some sent →
     sent = [OnShutdownChan v; OnShutdownChan true]
            ++ (if Map cfg then [OnLogChan "stopping MapDb"] else [])
            ++ (if Sql cfg then default [] sqlDb_Shutdown else [])
            ++ [OnDbDoneChan true]).
Proof.
  unfold DbManager_shutdown, Shutdown. split; [split|].
  - intros (fuel & sent & H). split.
    + intros Hm. rewrite Hm in H. destruct (Busy mapDb) eqn:Hb; [|done].
      rewrite Shutdown_loop_busy in H by done. discriminate.
    + intros Hs. rewrite Hs in H. destruct sqlDb_Shutdown; [by eexists|].
      destruct (Map cfg); [destruct (Shutdown_loop _ _ _ _ _ _)|]; discriminate.
  - intros [Hm Hs]. exists 1%nat. cbn [Shutdown_loop].
    destruct (Map cfg); [rewrite Hm by done|];
      (destruct (Sql cfg); [destruct Hs as [s ->]; [done|]|]); cbn; eauto.
  - intros fuel sent H.
    destruct (Map cfg).
    + destruct fuel as [|fuel]; [discriminate|]. cbn [Shutdown_loop] in H.
      destruct (Busy mapDb) eqn:Hb.
      { rewrite Shutdown_loop_busy in H by done. discriminate. }
      destruct (Sql cfg); [destruct sqlDb_Shutdown as [s|]; [|discriminate]|];
        cbn in H; injection H as <-; cbn; by rewrite <- ?app_assoc.
    + destruct (Sql cfg); [destruct sqlDb_Shutdown as [s|]; [|discriminate]|];
        cbn in H; injection H as <-; cbn; by rewrite <- ?app_assoc.
Qed.

(** The theorem with both stores on, a map store that is busy, and
    other goroutines that clear its flag at the first sleep. *)
Lemma DbManager_shutdown_done_witness :
  ¬ ∃ fuel sent,
      DbManager_shutdown fuel config16 clear_Busy busy_MapDb (Some []) true = Some sent.
Proof.
  intros H.
  apply (proj1 (DbManager_shutdown_done config16 clear_Busy busy_MapDb (Some []) true))
    in H as [H _].
  specialize (H eq_refl). discriminate H.
Defined.
